(** * Oliver's Application Tracker: action normalizer, record store and action applicator

    A shallow embedding of
    - [src/services/ai.ts]      (normalizeAiResponse, normalizeAction, sanitizeAction, to* coercions,
                                 safeParseJson and the end of requestAiActions),
    - [src/services/jobs.ts]    (addJob, updateJob, setStatus, addTag, addNote, setNote,
                                 setCustomFieldValue, deleteJob, upsertCustomField,
                                 loadJobs, loadSchema, ensureTimeline, summarize),
    - [src/services/schema.ts]  (makeFieldId, normalizeCustomValues),
    - [src/services/aiActions.ts] (applyAiActions, normalizeStatus),
    - [src/App.tsx]             (parseCsv, normalizeStatus, the CSV branch of handleImportFiles).

    Modelling choices.
    - JSON values are the inductive [json]; a JS object is its list of own
      enumerable properties in insertion order, with distinct keys (as produced
      by [JSON.parse] and by object literals).  [undefined] is [None].
    - JS numbers are modelled by their integer values ([Z]).
    - Strings are [String.string]; [trim] removes the ASCII whitespace characters.
    - [timestamp()] reads the [clock] field of the store; [createId()] (a random
      UUID in the source) draws the next value of a counter kept in the store.
    - The store holds the records as [loadJobs] returns them (timelines already
      normalized to arrays); [saveJobs] replaces them.  Listeners are not modelled. *)

From Stdlib Require Import String Ascii List Bool Arith ZArith NArith Lia.
Import ListNotations.
Open Scope string_scope.
Set Warnings "-register-all".

(* ------------------------------------------------------------------------- *)
(** ** Strings *)

Definition is_ws (c : ascii) : bool :=
  match nat_of_ascii c with
  | 9 | 10 | 11 | 12 | 13 | 32 => true
  | _ => false
  end.

Fixpoint trim_start (s : string) : string :=
  match s with
  | EmptyString => EmptyString
  | String c rest => if is_ws c then trim_start rest else s
  end.

Definition string_rev (s : string) : string :=
  string_of_list_ascii (rev (list_ascii_of_string s)).

(** [String.prototype.trim] *)
Definition trim (s : string) : string :=
  string_rev (trim_start (string_rev (trim_start s))).

(** Decimal rendering of a natural number ([String(n)] for integers). *)
Fixpoint N_digits (fuel : nat) (n : N) (acc : string) : string :=
  match fuel with
  | O => acc
  | S f =>
      let acc' := String (ascii_of_N (48 + N.modulo n 10)) acc in
      if N.ltb n 10 then acc' else N_digits f (N.div n 10) acc'
  end.

Definition N_to_string (n : N) : string := N_digits (S (N.size_nat n)) n "".

Definition nat_to_string (n : nat) : string := N_to_string (N.of_nat n).

Definition Z_to_string (z : Z) : string :=
  match z with
  | Z.neg p => "-" ++ N_to_string (Npos p)
  | _ => N_to_string (Z.to_N z)
  end.

(* ------------------------------------------------------------------------- *)
(** ** JSON values and JS objects *)

Inductive json : Type :=
| JNull
| JBool (b : bool)
| JNum (n : Z)
| JStr (s : string)
| JArr (items : list json)
| JObj (props : list (string * json)).

Definition obj := list (string * json).

(** Property read [o[k]]; [None] is [undefined]. *)
Fixpoint obj_get (o : obj) (k : string) : option json :=
  match o with
  | [] => None
  | (k', v) :: rest => if String.eqb k k' then Some v else obj_get rest k
  end.

(** Property write [o[k] = v]: an existing key keeps its position. *)
Fixpoint obj_set (o : obj) (k : string) (v : json) : obj :=
  match o with
  | [] => [(k, v)]
  | (k', v') :: rest =>
      if String.eqb k k' then (k', v) :: rest else (k', v') :: obj_set rest k v
  end.

(** [delete o[k]] *)
Fixpoint obj_delete (o : obj) (k : string) : obj :=
  match o with
  | [] => []
  | (k', v') :: rest =>
      if String.eqb k k' then rest else (k', v') :: obj_delete rest k
  end.

Definition obj_keys (o : obj) : list string := map fst o.

Fixpoint indexed {A} (n : nat) (l : list A) : list (string * A) :=
  match l with
  | [] => []
  | x :: rest => (nat_to_string n, x) :: indexed (S n) rest
  end.

Definition string_chars (s : string) : list json :=
  map (fun c => JStr (String c EmptyString)) (list_ascii_of_string s).

(** Own enumerable properties, as seen by [Object.keys] and object spread
    [{...v}].  Spreading [null], a number or a boolean gives [{}]. *)
Definition own_props (v : json) : obj :=
  match v with
  | JObj o => o
  | JArr l => indexed 0 l
  | JStr s => indexed 0 (string_chars s)
  | _ => []
  end.

(** [typeof v === 'object'] for a value that is truthy ([null] is falsy). *)
Definition is_object (v : json) : bool :=
  match v with
  | JObj _ | JArr _ => true
  | _ => false
  end.

Definition is_array (v : option json) : bool :=
  match v with
  | Some (JArr _) => true
  | _ => false
  end.

(** [String(v)] *)
Fixpoint js_String (v : json) : string :=
  match v with
  | JNull => "null"
  | JBool true => "true"
  | JBool false => "false"
  | JNum n => Z_to_string n
  | JStr s => s
  | JArr l =>
      (* Array.prototype.toString: join(','), null rendered as '' *)
      let fix join (l : list json) : string :=
        match l with
        | [] => ""
        | [x] => match x with JNull => "" | _ => js_String x end
        | x :: rest =>
            (match x with JNull => "" | _ => js_String x end) ++ "," ++ join rest
        end in
      join l
  | JObj _ => "[object Object]"
  end.

(* ------------------------------------------------------------------------- *)
(** ** The closed set of actions ([AiAction] in ai.ts) *)

(** A custom value: [string | number | null]. *)
Inductive scalar : Type :=
| SStr (s : string)
| SNum (n : Z)
| SNull.

(** [Record<string, string | number | null>], in insertion order. *)
Definition custom_map := list (string * scalar).

(** Write [m[k] = v] on a custom map. *)
Fixpoint custom_set (m : custom_map) (k : string) (v : scalar) : custom_map :=
  match m with
  | [] => [(k, v)]
  | (k', v') :: rest =>
      if String.eqb k k' then (k', v) :: rest else (k', v') :: custom_set rest k v
  end.

(** [{...a, ...b}] *)
Definition custom_merge (a b : custom_map) : custom_map :=
  fold_left (fun m kv => custom_set m (fst kv) (snd kv)) b a.

(** The runtime values [applyAiActions] receives.  [AddJob] .. [DeleteJob] are
    the seven variants of the [AiAction] union; [UnknownAction] stands for an
    object whose [type] names none of them (the [default:] branch). *)
Inductive AiAction : Type :=
| AddJob (company role : string) (status appliedDate : option string)
         (tags notes : option (list string)) (custom : option custom_map)
| UpdateJob (id : string) (company role status appliedDate : option string)
            (tags notes : option (list string)) (custom : option custom_map)
| SetStatus (id status : string)
| AddTag (id tag : string)
| AddNote (id note : string)
| AddCustomField (name fieldType : string)
| DeleteJob (id : string)
| UnknownAction (type : string).

Definition action_type (a : AiAction) : string :=
  match a with
  | AddJob _ _ _ _ _ _ _ => "add_job"
  | UpdateJob _ _ _ _ _ _ _ _ => "update_job"
  | SetStatus _ _ => "set_status"
  | AddTag _ _ => "add_tag"
  | AddNote _ _ => "add_note"
  | AddCustomField _ _ => "add_custom_field"
  | DeleteJob _ => "delete_job"
  | UnknownAction t => t
  end.

Definition ACTION_TYPES : list string :=
  ["add_job"; "update_job"; "set_status"; "add_tag"; "add_note";
   "add_custom_field"; "delete_job"].

Definition STATUS_TYPES : list string :=
  ["applied"; "rejected"; "interviewed"; "offer"; "accepted"; "archived"].

Definition FIELD_TYPES : list string := ["text"; "number"; "date"; "url"].

(** [Set.has] on a set of strings *)
Definition set_has (s : list string) (x : string) : bool :=
  existsb (String.eqb x) s.

(* ------------------------------------------------------------------------- *)
(** ** Coercions (ai.ts) *)

Definition toText (value : option json) : option string :=
  match value with
  | Some (JStr s) => let t := trim s in if String.eqb t "" then None else Some t
  | _ => None
  end.

Definition toOptionalText (value : option json) : option string :=
  match value with
  | Some (JStr s) => let t := trim s in if String.eqb t "" then None else Some t
  | _ => None
  end.

Definition toStatus (value : option json) : option string :=
  match value with
  | Some (JStr s) => if set_has STATUS_TYPES s then Some s else None
  | _ => None
  end.

Definition toStringArray (value : option json) : option (list string) :=
  match value with
  | Some (JArr l) =>
      Some (filter (fun item => negb (String.eqb (trim item) ""))
                   (map js_String l))
  | Some (JStr s) =>
      let t := trim s in Some (if String.eqb t "" then [] else [t])
  | _ => None
  end.

Definition to_scalar (v : json) : option scalar :=
  match v with
  | JNull => Some SNull
  | JStr s => Some (SStr s)
  | JNum n => Some (SNum n)
  | _ => None
  end.

Definition toCustom (value : option json) : option custom_map :=
  match value with
  | Some (JObj o) =>
      let result :=
        fold_left (fun m kv =>
                     match to_scalar (snd kv) with
                     | Some e => custom_set m (fst kv) e
                     | None => m
                     end) o [] in
      match result with [] => None | _ => Some result end
  | _ => None
  end.

(* ------------------------------------------------------------------------- *)
(** ** sanitizeAction, normalizeAction, normalizeAiResponse (ai.ts) *)

Definition sanitizeAction (action : obj) : option AiAction :=
  let get := obj_get action in
  match get "type" with
  | Some (JStr ty) =>
      if String.eqb ty "add_job" then
        match toText (get "company"), toText (get "role") with
        | Some company, Some role =>
            Some (AddJob company role (toStatus (get "status"))
                         (toOptionalText (get "appliedDate"))
                         (toStringArray (get "tags")) (toStringArray (get "notes"))
                         (toCustom (get "custom")))
        | _, _ => None
        end
      else if String.eqb ty "update_job" then
        match toText (get "id") with
        | Some id =>
            Some (UpdateJob id (toOptionalText (get "company"))
                            (toOptionalText (get "role")) (toStatus (get "status"))
                            (toOptionalText (get "appliedDate"))
                            (toStringArray (get "tags")) (toStringArray (get "notes"))
                            (toCustom (get "custom")))
        | None => None
        end
      else if String.eqb ty "set_status" then
        match toText (get "id"), toStatus (get "status") with
        | Some id, Some status => Some (SetStatus id status)
        | _, _ => None
        end
      else if String.eqb ty "add_tag" then
        match toText (get "id"), toText (get "tag") with
        | Some id, Some tag => Some (AddTag id tag)
        | _, _ => None
        end
      else if String.eqb ty "add_note" then
        match toText (get "id"), toText (get "note") with
        | Some id, Some note => Some (AddNote id note)
        | _, _ => None
        end
      else if String.eqb ty "add_custom_field" then
        match toText (get "name") with
        | Some name =>
            let fieldType :=
              match get "fieldType" with
              | Some (JStr ft) => if set_has FIELD_TYPES ft then ft else "text"
              | _ => "text"
              end in
            Some (AddCustomField name fieldType)
        | None => None
        end
      else if String.eqb ty "delete_job" then
        match toText (get "id") with
        | Some id => Some (DeleteJob id)
        | None => None
        end
      else None
  | _ => None
  end.

(** The single-key wrapper shape [{ "<kind>": { ... } }]. *)
Definition normalizeWrapped (record : obj) : option AiAction :=
  match obj_keys record with
  | [k] =>
      if set_has ACTION_TYPES k then
        match obj_get record k with
        | Some payload =>
            if is_object payload then
              (* const { type: _ignored, ...rest } = payload *)
              let rest := obj_delete (own_props payload) "type" in
              sanitizeAction (("type", JStr k) :: rest)
            else None
        | None => None
        end
      else None
  | _ => None
  end.

Definition normalizeAction (raw : json) : option AiAction :=
  if negb (is_object raw) then None else
  let record := own_props raw in
  match obj_get record "type" with
  | Some (JStr directType) =>
      if negb (String.eqb directType "") && set_has ACTION_TYPES directType
      then sanitizeAction (obj_set record "type" (JStr directType))
      else normalizeWrapped record
  | _ => normalizeWrapped record
  end.

Record AiResponse : Type := { summary : option string; actions : list AiAction }.

Definition normalizeAiResponse (raw : json) : AiResponse :=
  if negb (is_object raw) then {| summary := None; actions := [] |} else
  let record := own_props raw in
  let summary := match obj_get record "summary" with
                 | Some (JStr s) => Some s | _ => None end in
  let rawActions := match obj_get record "actions" with
                    | Some (JArr l) => l | _ => [] end in
  {| summary := summary; actions := flat_map (fun r =>
       match normalizeAction r with Some a => [a] | None => [] end) rawActions |}.

(* ------------------------------------------------------------------------- *)
(** ** Data model (types.ts) *)

Record TimelineEvent : Type := {
  ev_id : string;
  ev_type : string;
  ev_label : string;
  ev_createdAt : string
}.

Record Job : Type := {
  job_id : string;
  company : string;
  role : string;
  status : string;
  appliedDate : option string;
  tags : list string;
  notes : list string;
  custom : custom_map;
  timeline : list TimelineEvent;
  createdAt : option string;
  updatedAt : option string
}.

Record CustomField : Type := {
  field_id : string;
  field_name : string;
  field_type : string
}.

(** [JobInput] (jobs.ts) *)
Record JobInput : Type := {
  input_company : string;
  input_role : string;
  input_status : option string;
  input_appliedDate : option string;
  input_tags : option (list string);
  input_notes : option (list string);
  input_custom : option custom_map
}.

(** [Partial<JobInput>]; [None] is an absent or [undefined] field. *)
Record PartialJobInput : Type := {
  patch_company : option string;
  patch_role : option string;
  patch_status : option string;
  patch_appliedDate : option string;
  patch_tags : option (list string);
  patch_notes : option (list string);
  patch_custom : option custom_map
}.

(** The durable store as seen by the services: the loaded records and schema,
    the source of fresh identifiers and the current time. *)
Record Store : Type := {
  jobs : list Job;
  schema : list CustomField;
  next_id : nat;
  clock : string
}.

(* ------------------------------------------------------------------------- *)
(** ** A state monad for the store operations *)

Definition M (A : Type) : Type := Store -> A * Store.

Definition ret {A} (a : A) : M A := fun st => (a, st).

Definition bind {A B} (m : M A) (k : A -> M B) : M B :=
  fun st => let '(a, st') := m st in k a st'.

Notation "x <- m ;; k" := (bind m (fun x => k))
  (at level 61, m at next level, right associativity).
Notation "m ;;; k" := (bind m (fun _ => k))
  (at level 61, right associativity).

Definition loadJobsM : M (list Job) := fun st => (jobs st, st).

Definition saveJobs (js : list Job) : M unit :=
  fun st => (tt, {| jobs := js; schema := schema st; next_id := next_id st;
                    clock := clock st |}).

Definition loadSchemaM : M (list CustomField) := fun st => (schema st, st).

Definition saveSchema (fs : list CustomField) : M unit :=
  fun st => (tt, {| jobs := jobs st; schema := fs; next_id := next_id st;
                    clock := clock st |}).

(** [createId()] *)
Definition createId : M string :=
  fun st => ("job-" ++ nat_to_string (next_id st),
             {| jobs := jobs st; schema := schema st; next_id := S (next_id st);
                clock := clock st |}).

(** [timestamp()] *)
Definition timestamp : M string := fun st => (clock st, st).

Definition createTimelineEvent (type label createdAt : string) : M TimelineEvent :=
  id <- createId ;;
  ret {| ev_id := id; ev_type := type; ev_label := label; ev_createdAt := createdAt |}.

Definition STATUS_LABELS (s : string) : option string :=
  if String.eqb s "applied" then Some "Applied"
  else if String.eqb s "interviewed" then Some "Interviewing"
  else if String.eqb s "offer" then Some "Offer"
  else if String.eqb s "accepted" then Some "Accepted"
  else if String.eqb s "rejected" then Some "Rejected"
  else if String.eqb s "archived" then Some "Archived"
  else None.

(** [`${x}`] for a possibly undefined string *)
Definition template (x : option string) : string :=
  match x with Some s => s | None => "undefined" end.

(** JS truthiness of an optional string *)
Definition truthy (x : option string) : bool :=
  match x with Some s => negb (String.eqb s "") | None => false end.

Definition ensureTimeline (job : Job) : list TimelineEvent := timeline job.

Definition default {A} (d : A) (x : option A) : A :=
  match x with Some a => a | None => d end.

Definition opt_eqb (x y : option string) : bool :=
  match x, y with
  | Some a, Some b => String.eqb a b
  | None, None => true
  | _, _ => false
  end.

(** [jobs.map(f)], run in the store monad. *)
Fixpoint map_jobs (f : Job -> M Job) (l : list Job) : M (list Job) :=
  match l with
  | [] => ret []
  | j :: rest => j' <- f j ;; rest' <- map_jobs f rest ;; ret (j' :: rest')
  end.

(* ------------------------------------------------------------------------- *)
(** ** Record store operations (jobs.ts) *)

Definition addJob (input : JobInput) : M string :=
  jobs0 <- loadJobsM ;;
  let status := default "applied" (input_status input) in
  now <- timestamp ;;
  e_created <- createTimelineEvent "created" "Created" now ;;
  e_status <- createTimelineEvent "status_changed" (template (STATUS_LABELS status)) now ;;
  e_applied <- (if truthy (input_appliedDate input)
                then e <- createTimelineEvent "applied_date_updated"
                            ("Applied date: " ++ template (input_appliedDate input)) now ;;
                     ret [e]
                else ret []) ;;
  let timeline := ([e_created; e_status] ++ e_applied)%list in
  id <- createId ;;
  let job := {| job_id := id;
                company := input_company input;
                role := input_role input;
                status := status;
                appliedDate := Some (default "" (input_appliedDate input));
                tags := default [] (input_tags input);
                notes := default [] (input_notes input);
                custom := default [] (input_custom input);
                timeline := timeline;
                createdAt := Some now;
                updatedAt := Some now |} in
  saveJobs (job :: jobs0) ;;;
  ret id.

(** The callback of [jobs.map] in [updateJob]. *)
Definition updateJob_one (id : string) (input : PartialJobInput) (job : Job) : M Job :=
  if negb (String.eqb (job_id job) id) then ret job else
  let mergedCustom :=
    match patch_custom input with
    | Some c => custom_merge (custom job) c
    | None => custom job
    end in
  now <- timestamp ;;
  let timeline := ensureTimeline job in
  let nextAppliedDate :=
    match patch_appliedDate input with Some d => Some d | None => appliedDate job end in
  e_status <- (match patch_status input with
               | Some s =>
                   if truthy (Some s) && negb (String.eqb s (status job)) then
                     e <- createTimelineEvent "status_changed"
                            (default s (STATUS_LABELS s)) now ;;
                     ret [e]
                   else ret []
               | None => ret []
               end) ;;
  e_applied <- (if match patch_appliedDate input with Some _ => true | None => false end
                   && negb (opt_eqb nextAppliedDate (appliedDate job))
                then e <- createTimelineEvent "applied_date_updated"
                            ("Applied date: " ++
                             (if truthy nextAppliedDate then template nextAppliedDate
                              else "unknown")) now ;;
                     ret [e]
                else ret []) ;;
  ret {| job_id := job_id job;
         company := default (company job) (patch_company input);
         role := default (role job) (patch_role input);
         status := default (status job) (patch_status input);
         appliedDate := nextAppliedDate;
         tags := default (tags job) (patch_tags input);
         notes := default (notes job) (patch_notes input);
         custom := mergedCustom;
         timeline := (timeline ++ e_status ++ e_applied)%list;
         createdAt := createdAt job;
         updatedAt := Some now |}.

Definition updateJob (id : string) (input : PartialJobInput) : M unit :=
  jobs0 <- loadJobsM ;;
  updated <- map_jobs (updateJob_one id input) jobs0 ;;
  saveJobs updated.

Definition deleteJob (id : string) : M unit :=
  jobs0 <- loadJobsM ;;
  saveJobs (filter (fun job => negb (String.eqb (job_id job) id)) jobs0).

Definition setStatus_one (id new_status : string) (job : Job) : M Job :=
  if negb (String.eqb (job_id job) id) then ret job else
  if String.eqb (status job) new_status then ret job else
  now <- timestamp ;;
  let timeline := ensureTimeline job in
  e <- createTimelineEvent "status_changed" (template (STATUS_LABELS new_status)) now ;;
  ret {| job_id := job_id job; company := company job; role := role job;
         status := new_status; appliedDate := appliedDate job; tags := tags job;
         notes := notes job; custom := custom job;
         timeline := (timeline ++ [e])%list;
         createdAt := createdAt job; updatedAt := Some now |}.

Definition setStatus (id status : string) : M unit :=
  jobs0 <- loadJobsM ;;
  updated <- map_jobs (setStatus_one id status) jobs0 ;;
  saveJobs updated.

(** [new Set(xs).add(x)] read back with [Array.from]: first occurrences, in order. *)
Definition set_add (xs : list string) (x : string) : list string :=
  if existsb (String.eqb x) xs then xs else (xs ++ [x])%list.

Definition set_from (xs : list string) : list string := fold_left set_add xs [].

Definition addTag_one (id tag : string) (job : Job) : M Job :=
  if negb (String.eqb (job_id job) id) then ret job else
  let nextTags := set_add (set_from (tags job)) tag in
  now <- timestamp ;;
  let timeline := ensureTimeline job in
  e_tag <- (if negb (existsb (String.eqb tag) (tags job))
            then e <- createTimelineEvent "tag_added" "Tag added" now ;; ret [e]
            else ret []) ;;
  ret {| job_id := job_id job; company := company job; role := role job;
         status := status job; appliedDate := appliedDate job; tags := nextTags;
         notes := notes job; custom := custom job;
         timeline := (timeline ++ e_tag)%list;
         createdAt := createdAt job; updatedAt := Some now |}.

Definition addTag (id tag : string) : M unit :=
  jobs0 <- loadJobsM ;;
  updated <- map_jobs (addTag_one id tag) jobs0 ;;
  saveJobs updated.

Definition addNote_one (id note : string) (job : Job) : M Job :=
  if negb (String.eqb (job_id job) id) then ret job else
  now <- timestamp ;;
  ret {| job_id := job_id job; company := company job; role := role job;
         status := status job; appliedDate := appliedDate job; tags := tags job;
         notes := (notes job ++ [note])%list; custom := custom job;
         timeline := timeline job;
         createdAt := createdAt job; updatedAt := Some now |}.

Definition addNote (id note : string) : M unit :=
  jobs0 <- loadJobsM ;;
  updated <- map_jobs (addNote_one id note) jobs0 ;;
  saveJobs updated.

Definition setNote_one (id : string) (note : option string) (job : Job) : M Job :=
  if negb (String.eqb (job_id job) id) then ret job else
  now <- timestamp ;;
  ret {| job_id := job_id job; company := company job; role := role job;
         status := status job; appliedDate := appliedDate job; tags := tags job;
         notes := (if truthy note then [template note] else []); custom := custom job;
         timeline := timeline job;
         createdAt := createdAt job; updatedAt := Some now |}.

Definition setNote (id : string) (note : option string) : M unit :=
  jobs0 <- loadJobsM ;;
  updated <- map_jobs (setNote_one id note) jobs0 ;;
  saveJobs updated.

Definition setCustomFieldValue_one (id fieldId : string) (value : scalar) (job : Job)
  : M Job :=
  if negb (String.eqb (job_id job) id) then ret job else
  now <- timestamp ;;
  let timeline := ensureTimeline job in
  e <- createTimelineEvent "custom_updated" "Custom updated" now ;;
  ret {| job_id := job_id job; company := company job; role := role job;
         status := status job; appliedDate := appliedDate job; tags := tags job;
         notes := notes job; custom := custom_set (custom job) fieldId value;
         timeline := (timeline ++ [e])%list;
         createdAt := createdAt job; updatedAt := Some now |}.

Definition setCustomFieldValue (id fieldId : string) (value : scalar) : M unit :=
  jobs0 <- loadJobsM ;;
  updated <- map_jobs (setCustomFieldValue_one id fieldId value) jobs0 ;;
  saveJobs updated.

(* ------------------------------------------------------------------------- *)
(** ** Schema store (schema.ts, jobs.ts) *)

Definition lower_ascii (c : ascii) : ascii :=
  let n := nat_of_ascii c in
  if (Nat.leb 65 n) && (Nat.leb n 90) then ascii_of_nat (n + 32) else c.

(** [String.prototype.toLowerCase] on ASCII *)
Fixpoint toLowerCase (s : string) : string :=
  match s with
  | EmptyString => EmptyString
  | String c rest => String (lower_ascii c) (toLowerCase rest)
  end.

(** [[a-z0-9一-龥]]; the CJK range lies outside the ASCII strings
    of this model. *)
Definition is_id_char (c : ascii) : bool :=
  let n := nat_of_ascii c in
  ((Nat.leb 97 n) && (Nat.leb n 122)) || ((Nat.leb 48 n) && (Nat.leb n 57)).

(** [.replace(/[^a-z0-9一-龥]+/g, '-')]: each maximal run of other
    characters becomes one ['-']. *)
Fixpoint collapse_runs (s : string) (in_run : bool) : string :=
  match s with
  | EmptyString => EmptyString
  | String c rest =>
      if is_id_char c then String c (collapse_runs rest false)
      else if in_run then collapse_runs rest true
      else String "-" (collapse_runs rest true)
  end.

Fixpoint strip_leading_dashes (s : string) : string :=
  match s with
  | String "-" rest => strip_leading_dashes rest
  | _ => s
  end.

(** [.replace(/^-+|-+$/g, '')] *)
Definition strip_dashes (s : string) : string :=
  string_rev (strip_leading_dashes (string_rev (strip_leading_dashes s))).

(** [Math.random().toString(36).slice(2, 8)], drawn from the store's counter. *)
Definition randomToken : M string :=
  fun st => (nat_to_string (next_id st),
             {| jobs := jobs st; schema := schema st; next_id := S (next_id st);
                clock := clock st |}).

Definition makeFieldId (name : string) : M string :=
  let base := substring 0 32 (strip_dashes (collapse_runs (toLowerCase (trim name)) false)) in
  if String.eqb base "" then r <- randomToken ;; ret ("field-" ++ r) else ret base.

Definition upsertCustomField (name type : string) : M string :=
  schema0 <- loadSchemaM ;;
  id <- makeFieldId name ;;
  let exists_ := existsb (fun field => String.eqb (field_id field) id) schema0 in
  let updated :=
    if exists_ then
      map (fun field => if String.eqb (field_id field) id
                        then {| field_id := field_id field; field_name := name;
                                field_type := type |}
                        else field) schema0
    else (schema0 ++ [{| field_id := id; field_name := name; field_type := type |}])%list in
  saveSchema updated ;;;
  ret id.

(** [new Map(schema.map(f => [f.name.toLowerCase(), f.id])).get(key)]:
    a repeated name maps to its last field. *)
Definition byName_get (schema : list CustomField) (key : string) : option string :=
  fold_left (fun acc field =>
               if String.eqb (toLowerCase (field_name field)) key
               then Some (field_id field) else acc) schema None.

Definition normalizeCustomValues (custom : custom_map) (schema : list CustomField)
  : custom_map :=
  fold_left (fun normalized kv =>
               let id := default (fst kv) (byName_get schema (toLowerCase (fst kv))) in
               custom_set normalized id (snd kv)) custom [].

(* ------------------------------------------------------------------------- *)
(** ** The action applicator (aiActions.ts) *)

(** Store operations that may throw: the error is the thrown [Error]'s message;
    effects performed before a throw are kept, as in JS. *)
Definition EM (A : Type) : Type := Store -> (string + A) * Store.

Definition eret {A} (a : A) : EM A := fun st => (inr a, st).

Definition throw {A} (msg : string) : EM A := fun st => (inl msg, st).

Definition lift {A} (m : M A) : EM A := fun st => let '(a, st') := m st in (inr a, st').

Definition ebind {A B} (m : EM A) (k : A -> EM B) : EM B :=
  fun st => match m st with
            | (inl e, st') => (inl e, st')
            | (inr a, st') => k a st'
            end.

Notation "x <-? m ;; k" := (ebind m (fun x => k))
  (at level 61, m at next level, right associativity).

Definition allowedStatuses : list string :=
  ["applied"; "rejected"; "interviewed"; "offer"; "accepted"; "archived"].

Definition normalizeStatus (status : option string) : option string :=
  if negb (truthy status) then None
  else if set_has allowedStatuses (template status) then status else None.

Definition falsy (s : string) : bool := String.eqb s "".

(** The body of the [try] block for one action: [inr (ok, message)] is the
    result pushed by a [case] (or by [default:]), [inl message] a thrown error. *)
Definition applyAction (fields : list CustomField) (action : AiAction) : EM (bool * string) :=
  match action with
  | AddJob company role status appliedDate tags notes custom =>
      if falsy company || falsy role then throw "Missing company or role" else
      let custom' := option_map (fun c => normalizeCustomValues c fields) custom in
      _ <-? lift (addJob {| input_company := company; input_role := role;
                            input_status := normalizeStatus status;
                            input_appliedDate := appliedDate;
                            input_tags := None;
                            input_notes := notes;
                            input_custom := custom' |}) ;;
      eret (true, "Job added")
  | UpdateJob id company role status appliedDate tags notes custom =>
      if falsy id then throw "Missing id" else
      let custom' := option_map (fun c => normalizeCustomValues c fields) custom in
      _ <-? lift (updateJob id {| patch_company := company; patch_role := role;
                                  patch_status := normalizeStatus status;
                                  patch_appliedDate := appliedDate;
                                  patch_tags := None;
                                  patch_notes := notes;
                                  patch_custom := custom' |}) ;;
      eret (true, "Job updated")
  | SetStatus id status =>
      if falsy id || falsy status then throw "Missing id or status" else
      match normalizeStatus (Some status) with
      | None => throw "Invalid status"
      | Some normalized =>
          _ <-? lift (setStatus id normalized) ;;
          eret (true, "Status updated")
      end
  | AddNote id note =>
      if falsy id || falsy note then throw "Missing id or note" else
      _ <-? lift (addNote id note) ;;
      eret (true, "Note added")
  | AddCustomField name fieldType =>
      if falsy name || falsy fieldType then throw "Missing name or fieldType" else
      _ <-? lift (upsertCustomField name fieldType) ;;
      eret (true, "Field added")
  | DeleteJob id =>
      if falsy id then throw "Missing id" else
      _ <-? lift (deleteJob id) ;;
      eret (true, "Job deleted")
  | AddTag _ _ | UnknownAction _ =>
      eret (false, "Unsupported action: " ++ action_type action)
  end.

Record ActionResult : Type := {
  action : AiAction;
  ok : bool;
  message : string
}.

(** [for (const action of actions) { try { ... } catch (error) { ... } }],
    pushing onto [results]. *)
Fixpoint applyLoop (fields : list CustomField) (actions : list AiAction)
         (results : list ActionResult) : M (list ActionResult) :=
  match actions with
  | [] => ret results
  | a :: rest =>
      fun st =>
        let '(r, st') := applyAction fields a st in
        let res := match r with
                   | inr (ok, msg) => {| action := a; ok := ok; message := msg |}
                   | inl msg => {| action := a; ok := false; message := msg |}
                   end in
        applyLoop fields rest (results ++ [res])%list st'
  end.

Definition applyAiActions (actions : list AiAction) (fields : list CustomField)
  : M (list ActionResult) :=
  applyLoop fields actions [].

(* ------------------------------------------------------------------------- *)
(** ** Rehydration from durable storage (jobs.ts: loadJobs, loadSchema) *)

Section Rehydration.

(** [JSON.parse]: [None] when it throws a [SyntaxError]. *)
Variable JSON_parse : string -> option json.

(** [ensureTimeline(job)] on a stored value; [None] when reading [job.timeline]
    throws (a [null] element). *)
Definition ensureTimeline_json (job : json) : option (list json) :=
  match job with
  | JNull => None
  | JObj o => match obj_get o "timeline" with Some (JArr l) => Some l | _ => Some [] end
  | _ => Some []
  end.

(** [({ ...job, timeline: ensureTimeline(job) })] *)
Definition loadRecord (job : json) : option json :=
  match ensureTimeline_json job with
  | Some tl => Some (JObj (obj_set (own_props job) "timeline" (JArr tl)))
  | None => None
  end.

Fixpoint map_throwing (f : json -> option json) (l : list json) : option (list json) :=
  match l with
  | [] => Some []
  | x :: rest =>
      match f x with
      | Some y => match map_throwing f rest with
                  | Some ys => Some (y :: ys)
                  | None => None
                  end
      | None => None
      end
  end.

(** [loadJobs()] given [localStorage.getItem(JOBS_KEY)]. *)
Definition loadJobs (raw : option string) : list json :=
  match raw with
  | None => []
  | Some text =>
      if String.eqb text "" then [] else
      (* try { ... } catch { return []; } *)
      let attempt :=
        match JSON_parse text with
        | None => None
        | Some (JArr parsed) => map_throwing loadRecord parsed
        | Some _ => Some []
        end in
      match attempt with Some js => js | None => [] end
  end.

(** [loadSchema()] given [localStorage.getItem(SCHEMA_KEY)]. *)
Definition loadSchema (raw : option string) : list json :=
  match raw with
  | None => []
  | Some text =>
      if String.eqb text "" then [] else
      match JSON_parse text with
      | None => []
      | Some parsed =>
          (* Array.isArray(parsed?.customFields) ? parsed.customFields : [] *)
          match parsed with
          | JObj o => match obj_get o "customFields" with
                      | Some (JArr fields) => fields
                      | _ => []
                      end
          | _ => []
          end
      end
  end.

End Rehydration.

(* ------------------------------------------------------------------------- *)
(** ** Reading a custom value ([job.custom[k]]) *)

Fixpoint custom_get (m : custom_map) (k : string) : option scalar :=
  match m with
  | [] => None
  | (k', v) :: rest => if String.eqb k k' then Some v else custom_get rest k
  end.

(* ------------------------------------------------------------------------- *)
(** ** summarize (jobs.ts) *)

(** [.replace(/\s+/g, ' ')]: each maximal run of whitespace becomes one space. *)
Fixpoint collapse_ws (s : string) (in_run : bool) : string :=
  match s with
  | EmptyString => EmptyString
  | String c rest =>
      if is_ws c then
        (if in_run then collapse_ws rest true else String " " (collapse_ws rest true))
      else String c (collapse_ws rest false)
  end.

Definition summarize (text : string) : string :=
  let trimmed := collapse_ws (trim text) false in
  if Nat.leb (String.length trimmed) 48 then trimmed
  else substring 0 45 trimmed ++ "...".

(* ------------------------------------------------------------------------- *)
(** ** safeParseJson and the end of requestAiActions (ai.ts) *)

(** [text.indexOf(c)] for a one-character [c] *)
Fixpoint index_of_char (c : ascii) (s : string) : option nat :=
  match s with
  | EmptyString => None
  | String c' rest =>
      if Ascii.eqb c c' then Some 0 else option_map S (index_of_char c rest)
  end.

(** [text.lastIndexOf(c)] for a one-character [c] *)
Fixpoint last_index_of_char (c : ascii) (s : string) : option nat :=
  match s with
  | EmptyString => None
  | String c' rest =>
      match last_index_of_char c rest with
      | Some i => Some (S i)
      | None => if Ascii.eqb c c' then Some 0 else None
      end
  end.

Section ContentParsing.

(** [JSON.parse]: [None] when it throws. *)
Variable JSON_parse : string -> option json.

(** [safeParseJson(text)]; [None] is [null].  [text.slice(start, end + 1)] is
    the empty string when [end < start]. *)
Definition safeParseJson (text : string) : option json :=
  match JSON_parse text with
  | Some v => Some v
  | None =>
      match index_of_char "{" text, last_index_of_char "}" text with
      | Some start, Some end_ => JSON_parse (substring start (S end_ - start) text)
      | _, _ => None
      end
  end.

(** The end of [requestAiActions], from the reply's message [content]:
    [inl] is the thrown error's message. *)
Definition parseAiContent (content : string) : string + AiResponse :=
  match safeParseJson content with
  | Some parsed =>
      if is_object parsed then inr (normalizeAiResponse parsed)
      else inl "AI output is not valid JSON"
  | None => inl "AI output is not valid JSON"
  end.

End ContentParsing.

(* ------------------------------------------------------------------------- *)
(** ** parseCsv (App.tsx) *)

Definition dq : ascii := "034"%char.
Definition lf : ascii := "010"%char.
Definition cr : ascii := "013"%char.
Definition comma : ascii := ","%char.

(** [flushRow()]: the row is kept when it has a cell or pending text; the
    caller then continues with [row = []] and [current = ''] (when nothing is
    flushed, [current] is already empty). *)
Definition flushRow (rows : list (list string)) (row : list string) (current : string)
  : list (list string) :=
  if Nat.ltb 0 (length row) || Nat.ltb 0 (String.length current)
  then (rows ++ [(row ++ [current])%list])%list
  else rows.

(** The [for] loop of [parseCsv] over the remaining characters, with its
    variables [rows], [row], [current] and [inQuotes]; [i += 1] skips the
    next character. *)
Fixpoint parseCsv_loop (cs : list ascii) (rows : list (list string)) (row : list string)
         (current : string) (inQuotes : bool) : list (list string) :=
  match cs with
  | [] => flushRow rows row current
  | c :: rest =>
      if Ascii.eqb c dq then
        match rest with
        | c2 :: rest' =>
            if inQuotes && Ascii.eqb c2 dq
            then parseCsv_loop rest' rows row (current ++ String dq "") inQuotes
            else parseCsv_loop rest rows row current (negb inQuotes)
        | [] => parseCsv_loop rest rows row current (negb inQuotes)
        end
      else if Ascii.eqb c lf && negb inQuotes then
        parseCsv_loop rest (flushRow rows row current) [] "" inQuotes
      else if Ascii.eqb c cr && negb inQuotes then
        match rest with
        | c2 :: rest' =>
            if Ascii.eqb c2 lf
            then parseCsv_loop rest' (flushRow rows row current) [] "" inQuotes
            else parseCsv_loop rest (flushRow rows row current) [] "" inQuotes
        | [] => parseCsv_loop rest (flushRow rows row current) [] "" inQuotes
        end
      else if Ascii.eqb c comma && negb inQuotes then
        parseCsv_loop rest rows (row ++ [current])%list "" inQuotes
      else parseCsv_loop rest rows row (current ++ String c "") inQuotes
  end.

Definition parseCsv (text : string) : list (list string) :=
  parseCsv_loop (list_ascii_of_string text) [] [] "" false.

(** A CSV writer quoting every cell and doubling the quotes inside it, rows
    separated by [sep]: the input format [parseCsv] is compared against. *)
Fixpoint csv_escape (cs : list ascii) : list ascii :=
  match cs with
  | [] => []
  | c :: rest => if Ascii.eqb c dq then dq :: dq :: csv_escape rest else c :: csv_escape rest
  end.

Definition csv_cell (cell : string) : list ascii :=
  (dq :: csv_escape (list_ascii_of_string cell) ++ [dq])%list.

Fixpoint csv_row (r : list string) : list ascii :=
  match r with
  | [] => []
  | [c] => csv_cell c
  | c :: rest => (csv_cell c ++ comma :: csv_row rest)%list
  end.

Fixpoint csv_rows (sep : list ascii) (rows : list (list string)) : list ascii :=
  match rows with
  | [] => []
  | [r] => csv_row r
  | r :: rest => (csv_row r ++ sep ++ csv_rows sep rest)%list
  end.

Definition csv_encode (sep : list ascii) (rows : list (list string)) : string :=
  string_of_list_ascii (csv_rows sep rows).

(* ------------------------------------------------------------------------- *)
(** ** CSV import (App.tsx: handleImportFiles, CSV branch) *)

(** [headers.indexOf(name)] *)
Fixpoint index_of_str (l : list string) (x : string) : option nat :=
  match l with
  | [] => None
  | y :: rest => if String.eqb x y then Some 0 else option_map S (index_of_str rest x)
  end.

(** The component's own [normalizeStatus(value?)]: lower-cased and trimmed;
    its [allowedStatuses] lists the same six values as aiActions.ts. *)
Definition App_normalizeStatus (value : option string) : option string :=
  if negb (truthy value) then None else
  let normalized := trim (toLowerCase (template value)) in
  if set_has allowedStatuses normalized then Some normalized else None.

Record ImportInput : Type := {
  imp_company : option string;
  imp_role : option string;
  imp_status : option string;
  imp_appliedDate : option string;
  imp_note : option string
}.

(** [get(name)]: [index >= 0 ? row[index]?.trim() : ''] *)
Definition csv_get (headers row : list string) (name : string) : option string :=
  match index_of_str headers name with
  | Some index => option_map trim (nth_error row index)
  | None => Some ""
  end.

(** [a || b] on optional strings *)
Definition js_or (a b : option string) : option string := if truthy a then a else b.

Definition csvRowToInput (headers row : list string) : ImportInput :=
  let get := csv_get headers row in
  {| imp_company := get "company";
     imp_role := get "role";
     imp_status := App_normalizeStatus (get "status");
     imp_appliedDate := js_or (get "applieddate") (get "applied_date");
     imp_note := get "note" |}.

(** [for (const input of inputs) { if (!input.company || !input.role) continue;
    await addJob({...}); added += 1; }] *)
Fixpoint importInputs (inputs : list ImportInput) (added : nat) : M nat :=
  match inputs with
  | [] => ret added
  | input :: rest =>
      if negb (truthy (imp_company input)) || negb (truthy (imp_role input))
      then importInputs rest added
      else
        addJob {| input_company := template (imp_company input);
                  input_role := template (imp_role input);
                  input_status := imp_status input;
                  input_appliedDate := imp_appliedDate input;
                  input_tags := None;
                  input_notes := if truthy (imp_note input)
                                 then Some [template (imp_note input)] else None;
                  input_custom := None |} ;;;
        importInputs rest (S added)
  end.

(** The CSV branch of [handleImportFiles] on the file's text: the number of
    records added, or the thrown message. *)
Definition importCsv (text : string) : EM nat :=
  let rows := parseCsv text in
  if Nat.ltb (length rows) 2
  then throw "CSV must include a header and at least one row." else
  let headers := map (fun cell => toLowerCase (trim cell)) (hd [] rows) in
  let inputs := map (csvRowToInput headers) (tl rows) in
  lift (importInputs inputs 0).

(* ------------------------------------------------------------------------- *)
(** ** Well-formed commands *)

(** A string the coercions can return: non-empty and already trimmed. *)
Definition trimmed_text (x : string) : Prop := x <> "" /\ trim x = x.

Definition opt_prop {A} (P : A -> Prop) (x : option A) : Prop :=
  match x with Some a => P a | None => True end.

Definition nonblank_items (l : list string) : Prop := Forall (fun s => trim s <> "") l.

(** The shape of every command [sanitizeAction] returns. *)
Definition well_formed_action (a : AiAction) : Prop :=
  match a with
  | AddJob company role status appliedDate tags notes custom =>
      trimmed_text company /\ trimmed_text role /\
      opt_prop (fun s => In s STATUS_TYPES) status /\ opt_prop trimmed_text appliedDate /\
      opt_prop nonblank_items tags /\ opt_prop nonblank_items notes /\
      opt_prop (fun m => m <> []) custom
  | UpdateJob id company role status appliedDate tags notes custom =>
      trimmed_text id /\ opt_prop trimmed_text company /\ opt_prop trimmed_text role /\
      opt_prop (fun s => In s STATUS_TYPES) status /\ opt_prop trimmed_text appliedDate /\
      opt_prop nonblank_items tags /\ opt_prop nonblank_items notes /\
      opt_prop (fun m => m <> []) custom
  | SetStatus id status => trimmed_text id /\ In status STATUS_TYPES
  | AddTag id tag => trimmed_text id /\ trimmed_text tag
  | AddNote id note => trimmed_text id /\ trimmed_text note
  | AddCustomField name fieldType => trimmed_text name /\ In fieldType FIELD_TYPES
  | DeleteJob id => trimmed_text id
  | UnknownAction _ => False
  end.

(* ------------------------------------------------------------------------- *)
(** ** Auxiliary predicates *)

(** Drop the leading characters satisfying [p]. *)
Fixpoint drop_while (p : ascii -> bool) (l : list ascii) : list ascii :=
  match l with
  | [] => []
  | c :: rest => if p c then drop_while p rest else l
  end.



(** The row separators [parseCsv] recognises: LF, CRLF and a lone CR. *)
Definition sep_ok (sep : list ascii) : Prop := sep = [lf] \/ sep = [cr; lf] \/ sep = [cr].

(** A row [parseCsv] keeps: a line holding one empty cell is blank and is dropped. *)
Definition csv_row_ok (r : list string) : Prop := r <> [] /\ r <> [""].

(** The import loop adds a row unless [!input.company || !input.role]. *)
Definition importable (i : ImportInput) : bool :=
  truthy (imp_company i) && truthy (imp_role i).

(** What the CSV branch produces: trimmed company and role, an allowed status. *)
Definition clean_input (i : ImportInput) : Prop :=
  opt_prop (fun s => trim s = s) (imp_company i) /\
  opt_prop (fun s => trim s = s) (imp_role i) /\
  opt_prop (fun s => In s allowedStatuses) (imp_status i).

(** A record added by the import: non-empty trimmed company and role, an allowed status. *)
Definition imported_record (j : Job) : Prop :=
  trimmed_text (company j) /\ trimmed_text (role j) /\ In (status j) allowedStatuses.

(** The parts of the store the record operations do not touch. *)
Definition frame (s s' : Store) : Prop := schema s' = schema s /\ clock s' = clock s.

(* ------------------------------------------------------------------------- *)
(** ** Sample stores *)

Definition empty_store (now : string) : Store :=
  {| jobs := []; schema := []; next_id := 0; clock := now |}.

Definition sample_job : Job :=
  {| job_id := "job-0"; company := "Acme"; role := "Engineer"; status := "applied";
     appliedDate := Some ""; tags := []; notes := []; custom := [];
     timeline := []; createdAt := Some "t0"; updatedAt := Some "t0" |}.

Definition sample_store : Store :=
  {| jobs := [sample_job]; schema := []; next_id := 1; clock := "t1" |}.

Example trim_example : trim "  Acme  " = "Acme".
Proof. reflexivity. Qed.

Example makeFieldId_example :
  fst (makeFieldId " Source / Channel!" (empty_store "t")) = "source-channel".
Proof. reflexivity. Qed.

Example wrapper_example :
  actions (normalizeAiResponse
    (JObj [("actions", JArr [JObj [("add_job", JObj [("company", JStr "Acme");
        ("role", JStr "Engineer"); ("status", JStr "applied")])]])]))
  = [AddJob "Acme" "Engineer" (Some "applied") None None None None].
Proof. reflexivity. Qed.

Definition sample_reply : json :=
  JObj [("actions", JArr [JObj [("add_job", JObj [("company", JStr " Acme ");
        ("role", JStr "Engineer"); ("status", JStr "applied")])]])].

Definition sample_patch : PartialJobInput :=
  {| patch_company := None; patch_role := Some "Staff Engineer"; patch_status := None;
     patch_appliedDate := None; patch_tags := None; patch_notes := None;
     patch_custom := Some [("salary", SNum 100%Z)] |}.


Definition sample_rows : list (list string) :=
  [["name"; "note"]; ["Acme, Inc."; ("said " ++ String dq "hi" ++ String dq "")%string]; [""; "x"]].

Definition sample_csv : string :=
  "company,role,status" ++ String lf ("Acme,Engineer, Offer " ++ String lf ",Designer,applied").

(** A [JSON.parse] that accepts only the text [{}]. *)
Definition toy_parse (text : string) : option json :=
  if String.eqb text "{}" then Some (JObj []) else None.

(* ========================================================================= *)
(** * Lemmas *)

(* ------------------------------------------------------------------------- *)
(** ** Generic facts about [map_jobs] *)

Lemma map_jobs_cons (f : Job -> M Job) (x : Job) (rest : list Job) (st : Store) :
  map_jobs f (x :: rest) st =
  let '(x', st1) := f x st in
  let '(r, st2) := map_jobs f rest st1 in (x' :: r, st2).
Proof.
  simpl. unfold bind, ret. destruct (f x st) as [x' st1].
  destruct (map_jobs f rest st1). reflexivity.
Qed.

(** A step that leaves every element of the collection unchanged leaves the
    collection and the store unchanged. *)
Lemma map_jobs_unchanged (f : Job -> M Job) (l : list Job) (st : Store) :
  (forall j s, In j l -> f j s = (j, s)) -> map_jobs f l st = (l, st).
Proof.
  revert st. induction l as [|x rest IH]; intros st Hf.
  - reflexivity.
  - rewrite map_jobs_cons. rewrite (Hf x st (or_introl eq_refl)).
    rewrite IH by (intros; apply Hf; right; assumption). reflexivity.
Qed.

(** The [i]-th element of the mapped collection is the step applied to the
    [i]-th element, in a store showing the same time. *)
Lemma map_jobs_nth (f : Job -> M Job) (l : list Job) (st : Store) (i : nat) (j : Job) :
  (forall j s, clock (snd (f j s)) = clock s) ->
  nth_error l i = Some j ->
  exists s, clock s = clock st /\ nth_error (fst (map_jobs f l st)) i = Some (fst (f j s)).
Proof.
  intros Hclock. revert st i. induction l as [|x rest IH]; intros st i Hi.
  - destruct i; discriminate.
  - rewrite map_jobs_cons. destruct (f x st) as [x' st1] eqn:Ex.
    destruct (map_jobs f rest st1) as [r st2] eqn:Er.
    destruct i as [|i]; simpl in Hi.
    + inversion Hi; subst. exists st. rewrite Ex. auto.
    + destruct (IH st1 i Hi) as [s [Hs Hn]]. exists s. split.
      * rewrite Hs. pose proof (Hclock x st) as Hc. rewrite Ex in Hc. exact Hc.
      * rewrite Er in Hn. exact Hn.
Qed.

(** Every element of the mapped collection is the image of an element. *)
Lemma map_jobs_in (f : Job -> M Job) (l : list Job) (st : Store) (j' : Job) :
  In j' (fst (map_jobs f l st)) -> exists j s, In j l /\ j' = fst (f j s).
Proof.
  revert st. induction l as [|x rest IH]; intros st Hin.
  - contradiction.
  - rewrite map_jobs_cons in Hin. destruct (f x st) as [x' st1] eqn:Ex.
    destruct (map_jobs f rest st1) as [r st2] eqn:Er. simpl in Hin.
    destruct Hin as [<- | Hin].
    + exists x, st. rewrite Ex. split; [left; reflexivity | reflexivity].
    + assert (Hin' : In j' (fst (map_jobs f rest st1))) by (rewrite Er; exact Hin).
      destruct (IH st1 Hin') as [j [s [Hj ->]]].
      exists j, s. split; [right; exact Hj | reflexivity].
Qed.

Ltac unfold_monad :=
  unfold bind, ret, createTimelineEvent, createId, timestamp in *; simpl in *.

Ltac split_cases :=
  repeat (match goal with
          | |- context [match ?x with Some _ => _ | None => _ end] => destruct x
          | |- context [if ?a && _ then _ else _] => destruct a
          | |- context [if negb ?b then _ else _] => destruct b
          | |- context [if ?b then _ else _] => destruct b
          end; simpl).

Ltac step_match H :=
  rewrite H, String.eqb_refl; simpl; unfold_monad.

Ltac step_miss H :=
  apply String.eqb_neq in H; rewrite H; reflexivity.

(* ------------------------------------------------------------------------- *)
(** ** The per-record steps leave records with another id untouched *)

Lemma updateJob_one_other id p j s : job_id j <> id -> updateJob_one id p j s = (j, s).
Proof. intro H. unfold updateJob_one. step_miss H. Qed.

Lemma setStatus_one_other id x j s : job_id j <> id -> setStatus_one id x j s = (j, s).
Proof. intro H. unfold setStatus_one. step_miss H. Qed.

Lemma addTag_one_other id x j s : job_id j <> id -> addTag_one id x j s = (j, s).
Proof. intro H. unfold addTag_one. step_miss H. Qed.

Lemma addNote_one_other id x j s : job_id j <> id -> addNote_one id x j s = (j, s).
Proof. intro H. unfold addNote_one. step_miss H. Qed.

Lemma setNote_one_other id x j s : job_id j <> id -> setNote_one id x j s = (j, s).
Proof. intro H. unfold setNote_one. step_miss H. Qed.

Lemma setCustomFieldValue_one_other id k v j s :
  job_id j <> id -> setCustomFieldValue_one id k v j s = (j, s).
Proof. intro H. unfold setCustomFieldValue_one. step_miss H. Qed.

(* ------------------------------------------------------------------------- *)
(** ** The per-record steps never move the clock *)

Lemma updateJob_one_clock id p j s : clock (snd (updateJob_one id p j s)) = clock s.
Proof.
  unfold updateJob_one. destruct (String.eqb (job_id j) id); simpl; unfold_monad;
    [| reflexivity].
  split_cases; reflexivity.
Qed.

Lemma setStatus_one_clock id x j s : clock (snd (setStatus_one id x j s)) = clock s.
Proof.
  unfold setStatus_one. destruct (String.eqb (job_id j) id); simpl; [|reflexivity].
  destruct (String.eqb (status j) x); reflexivity.
Qed.

Lemma addTag_one_clock id x j s : clock (snd (addTag_one id x j s)) = clock s.
Proof.
  unfold addTag_one. destruct (String.eqb (job_id j) id); simpl; [|reflexivity].
  unfold_monad. destruct (existsb (String.eqb x) (tags j)); reflexivity.
Qed.

Lemma addNote_one_clock id x j s : clock (snd (addNote_one id x j s)) = clock s.
Proof.
  unfold addNote_one. destruct (String.eqb (job_id j) id); reflexivity.
Qed.

Lemma setNote_one_clock id x j s : clock (snd (setNote_one id x j s)) = clock s.
Proof.
  unfold setNote_one. destruct (String.eqb (job_id j) id); reflexivity.
Qed.

Lemma setCustomFieldValue_one_clock id k v j s :
  clock (snd (setCustomFieldValue_one id k v j s)) = clock s.
Proof.
  unfold setCustomFieldValue_one. destruct (String.eqb (job_id j) id); reflexivity.
Qed.

(* ------------------------------------------------------------------------- *)
(** ** Mutators over the collection *)

(** The shape shared by [updateJob], [setStatus], [addTag], [addNote], [setNote]
    and [setCustomFieldValue]: load, map a per-record step, save. *)
Definition map_mutation (f : Job -> M Job) : M unit :=
  jobs0 <- loadJobsM ;;
  updated <- map_jobs f jobs0 ;;
  saveJobs updated.

Lemma map_mutation_jobs (f : Job -> M Job) (st : Store) :
  jobs (snd (map_mutation f st)) = fst (map_jobs f (jobs st) st).
Proof.
  unfold map_mutation, bind, loadJobsM, saveJobs. simpl.
  destruct (map_jobs f (jobs st) st). reflexivity.
Qed.

Lemma map_mutation_missing (f : Job -> M Job) (id : string) (st : Store) :
  (forall j s, job_id j <> id -> f j s = (j, s)) ->
  ~ In id (map job_id (jobs st)) ->
  jobs (snd (map_mutation f st)) = jobs st.
Proof.
  intros Hf Hmiss. rewrite map_mutation_jobs.
  rewrite map_jobs_unchanged; [reflexivity|].
  intros j s Hj. apply Hf. intro E. apply Hmiss. rewrite <- E. apply in_map. exact Hj.
Qed.

Lemma filter_keep_all {A} (f : A -> bool) (l : list A) :
  (forall x, In x l -> f x = true) -> filter f l = l.
Proof.
  induction l as [|x rest IH]; intro H; simpl; [reflexivity|].
  rewrite (H x (or_introl eq_refl)). f_equal. apply IH. intros y Hy. apply H. right. exact Hy.
Qed.

Lemma map_mutation_nth (f : Job -> M Job) (st : Store) (i : nat) (j : Job) :
  (forall j s, clock (snd (f j s)) = clock s) ->
  nth_error (jobs st) i = Some j ->
  exists s, clock s = clock st /\
            nth_error (jobs (snd (map_mutation f st))) i = Some (fst (f j s)).
Proof.
  intros Hc Hi. rewrite map_mutation_jobs. exact (map_jobs_nth f (jobs st) st i j Hc Hi).
Qed.

(* ------------------------------------------------------------------------- *)
(** ** Tags as a set *)

Lemma existsb_eqb_In (x : string) (l : list string) :
  existsb (String.eqb x) l = true <-> In x l.
Proof.
  rewrite existsb_exists. split.
  - intros [y [Hy E]]. apply String.eqb_eq in E. subst. exact Hy.
  - intro H. exists x. split; [exact H | apply String.eqb_refl].
Qed.

Lemma set_add_in (xs : list string) (x : string) : In x (set_add xs x).
Proof.
  unfold set_add. destruct (existsb (String.eqb x) xs) eqn:E.
  - apply existsb_eqb_In. exact E.
  - apply in_or_app. right. left. reflexivity.
Qed.

Lemma set_add_nodup (xs : list string) (x : string) : NoDup xs -> NoDup (set_add xs x).
Proof.
  intro H. unfold set_add. destruct (existsb (String.eqb x) xs) eqn:E; [exact H|].
  apply NoDup_app; [exact H | constructor; [intros [] | constructor] |].
  intros a Ha [<- | []]. apply Bool.not_true_iff_false in E. apply E.
  apply existsb_eqb_In. exact Ha.
Qed.

Lemma set_from_nodup (l : list string) : NoDup (set_from l).
Proof.
  unfold set_from. assert (H : NoDup (@nil string)) by constructor.
  revert H. generalize (@nil string). induction l as [|x rest IH]; intros acc H.
  - exact H.
  - simpl. apply IH. apply set_add_nodup. exact H.
Qed.

(* ------------------------------------------------------------------------- *)
(** ** The per-record steps on the record they target *)

Lemma setStatus_one_match (id x : string) (j : Job) (s : Store) :
  job_id j = id ->
  let j' := fst (setStatus_one id x j s) in
  job_id j' = id /\ status j' = x /\ createdAt j' = createdAt j /\
  (exists new, timeline j' = (timeline j ++ new)%list /\
     map ev_type new = (if String.eqb (status j) x then [] else ["status_changed"])) /\
  (String.eqb (status j) x = true -> j' = j) /\
  (String.eqb (status j) x = false -> updatedAt j' = Some (clock s)).
Proof.
  intro H. unfold setStatus_one. rewrite H, String.eqb_refl. simpl.
  destruct (String.eqb (status j) x) eqn:E; simpl; unfold_monad.
  - apply String.eqb_eq in E. repeat split; auto.
    + exists []. rewrite app_nil_r. split; reflexivity.
    + discriminate.
  - repeat split; auto.
    + eexists. split; reflexivity.
    + discriminate.
Qed.

Lemma updateJob_one_match (id : string) (p : PartialJobInput) (j : Job) (s : Store) :
  job_id j = id ->
  (forall x, patch_status p = Some x -> x <> "") ->
  let j' := fst (updateJob_one id p j s) in
  job_id j' = id /\ createdAt j' = createdAt j /\ updatedAt j' = Some (clock s) /\
  exists new, timeline j' = (timeline j ++ new)%list /\
    map ev_type new =
      ((match patch_status p with
        | Some x => if String.eqb x (status j) then [] else ["status_changed"]
        | None => []
        end) ++
       (match patch_appliedDate p with
        | Some d => if opt_eqb (Some d) (appliedDate j) then [] else ["applied_date_updated"]
        | None => []
        end))%list.
Proof.
  intros H Hne. unfold updateJob_one. rewrite H, String.eqb_refl. simpl. unfold_monad.
  destruct (patch_status p) as [x|];
    [assert (Ex : String.eqb x "" = false)
       by (apply String.eqb_neq; exact (Hne x eq_refl)); rewrite Ex |];
    destruct (patch_appliedDate p) as [d|]; destruct (appliedDate j) as [a|]; simpl;
    split_cases; repeat split; auto; eexists; split; reflexivity.
Qed.

Lemma addTag_one_match (id tag : string) (j : Job) (s : Store) :
  job_id j = id ->
  let j' := fst (addTag_one id tag j s) in
  job_id j' = id /\ createdAt j' = createdAt j /\ updatedAt j' = Some (clock s) /\
  (exists new, timeline j' = (timeline j ++ new)%list /\
     map ev_type new =
       (if existsb (String.eqb tag) (tags j) then [] else ["tag_added"])) /\
  count_occ string_dec (tags j') tag = 1.
Proof.
  intro H. unfold addTag_one. rewrite H, String.eqb_refl. simpl. unfold_monad.
  assert (Hc : count_occ string_dec (set_add (set_from (tags j)) tag) tag = 1)
    by (apply NoDup_count_occ';
        [apply set_add_nodup, set_from_nodup | apply set_add_in]).
  destruct (existsb (String.eqb tag) (tags j)); simpl; repeat split; auto.
  - exists []. split; reflexivity.
  - eexists. split; reflexivity.
Qed.

Lemma addNote_one_match (id note : string) (j : Job) (s : Store) :
  job_id j = id ->
  let j' := fst (addNote_one id note j s) in
  job_id j' = id /\ createdAt j' = createdAt j /\ updatedAt j' = Some (clock s).
Proof. intro H. unfold addNote_one. rewrite H, String.eqb_refl. simpl. auto. Qed.

Lemma setNote_one_match (id : string) (note : option string) (j : Job) (s : Store) :
  job_id j = id ->
  let j' := fst (setNote_one id note j s) in
  job_id j' = id /\ createdAt j' = createdAt j /\ updatedAt j' = Some (clock s).
Proof. intro H. unfold setNote_one. rewrite H, String.eqb_refl. simpl. auto. Qed.

Lemma setCustomFieldValue_one_match (id k : string) (v : scalar) (j : Job) (s : Store) :
  job_id j = id ->
  let j' := fst (setCustomFieldValue_one id k v j s) in
  job_id j' = id /\ createdAt j' = createdAt j /\ updatedAt j' = Some (clock s).
Proof. intro H. unfold setCustomFieldValue_one. rewrite H, String.eqb_refl. simpl. auto. Qed.

(* ------------------------------------------------------------------------- *)
(** ** The collection-level mutators on the record they target *)

Lemma setStatus_nth (st : Store) (id x : string) (i : nat) (j : Job) :
  nth_error (jobs st) i = Some j -> job_id j = id ->
  exists s, clock s = clock st /\
    nth_error (jobs (snd (setStatus id x st))) i = Some (fst (setStatus_one id x j s)).
Proof.
  intros Hi _. apply (map_mutation_nth (setStatus_one id x)); [|exact Hi].
  intros; apply setStatus_one_clock.
Qed.

Lemma updateJob_nth (st : Store) (id : string) (p : PartialJobInput) (i : nat) (j : Job) :
  nth_error (jobs st) i = Some j ->
  exists s, clock s = clock st /\
    nth_error (jobs (snd (updateJob id p st))) i = Some (fst (updateJob_one id p j s)).
Proof.
  intros Hi. apply (map_mutation_nth (updateJob_one id p)); [|exact Hi].
  intros; apply updateJob_one_clock.
Qed.

Lemma addTag_nth (st : Store) (id tag : string) (i : nat) (j : Job) :
  nth_error (jobs st) i = Some j ->
  exists s, clock s = clock st /\
    nth_error (jobs (snd (addTag id tag st))) i = Some (fst (addTag_one id tag j s)).
Proof.
  intros Hi. apply (map_mutation_nth (addTag_one id tag)); [|exact Hi].
  intros; apply addTag_one_clock.
Qed.

Lemma addNote_nth (st : Store) (id note : string) (i : nat) (j : Job) :
  nth_error (jobs st) i = Some j ->
  exists s, clock s = clock st /\
    nth_error (jobs (snd (addNote id note st))) i = Some (fst (addNote_one id note j s)).
Proof.
  intros Hi. apply (map_mutation_nth (addNote_one id note)); [|exact Hi].
  intros; apply addNote_one_clock.
Qed.

Lemma setNote_nth (st : Store) (id : string) (note : option string) (i : nat) (j : Job) :
  nth_error (jobs st) i = Some j ->
  exists s, clock s = clock st /\
    nth_error (jobs (snd (setNote id note st))) i = Some (fst (setNote_one id note j s)).
Proof.
  intros Hi. apply (map_mutation_nth (setNote_one id note)); [|exact Hi].
  intros; apply setNote_one_clock.
Qed.

Lemma setCustomFieldValue_nth (st : Store) (id k : string) (v : scalar) (i : nat) (j : Job) :
  nth_error (jobs st) i = Some j ->
  exists s, clock s = clock st /\
    nth_error (jobs (snd (setCustomFieldValue id k v st))) i =
      Some (fst (setCustomFieldValue_one id k v j s)).
Proof.
  intros Hi. apply (map_mutation_nth (setCustomFieldValue_one id k v)); [|exact Hi].
  intros; apply setCustomFieldValue_one_clock.
Qed.

Lemma allowed_status_nonempty (x : string) : In x allowedStatuses -> x <> "".
Proof. simpl. intros H E. subst x. repeat destruct H as [H|H]; discriminate || contradiction. Qed.

(* ------------------------------------------------------------------------- *)
(** ** [createdAt] is never rewritten *)

Lemma updateJob_one_updatedAt id p j s :
  job_id j = id -> updatedAt (fst (updateJob_one id p j s)) = Some (clock s).
Proof.
  intro E. unfold updateJob_one. rewrite E, String.eqb_refl. simpl. unfold_monad.
  split_cases; reflexivity.
Qed.

Lemma updateJob_one_createdAt id p j s :
  createdAt (fst (updateJob_one id p j s)) = createdAt j.
Proof.
  destruct (String.eqb_spec (job_id j) id) as [E|E].
  - unfold updateJob_one. rewrite E, String.eqb_refl. simpl. unfold_monad.
    split_cases; reflexivity.
  - rewrite updateJob_one_other by exact E. reflexivity.
Qed.

Lemma setStatus_one_createdAt id x j s :
  createdAt (fst (setStatus_one id x j s)) = createdAt j.
Proof.
  destruct (String.eqb_spec (job_id j) id) as [E|E].
  - apply (setStatus_one_match id x j s E).
  - rewrite setStatus_one_other by exact E. reflexivity.
Qed.

Lemma addTag_one_createdAt id x j s :
  createdAt (fst (addTag_one id x j s)) = createdAt j.
Proof.
  destruct (String.eqb_spec (job_id j) id) as [E|E].
  - apply (addTag_one_match id x j s E).
  - rewrite addTag_one_other by exact E. reflexivity.
Qed.

Lemma addNote_one_createdAt id x j s :
  createdAt (fst (addNote_one id x j s)) = createdAt j.
Proof.
  destruct (String.eqb_spec (job_id j) id) as [E|E].
  - apply (addNote_one_match id x j s E).
  - rewrite addNote_one_other by exact E. reflexivity.
Qed.

Lemma setNote_one_createdAt id x j s :
  createdAt (fst (setNote_one id x j s)) = createdAt j.
Proof.
  destruct (String.eqb_spec (job_id j) id) as [E|E].
  - apply (setNote_one_match id x j s E).
  - rewrite setNote_one_other by exact E. reflexivity.
Qed.

Lemma setCustomFieldValue_one_createdAt id k v j s :
  createdAt (fst (setCustomFieldValue_one id k v j s)) = createdAt j.
Proof.
  destruct (String.eqb_spec (job_id j) id) as [E|E].
  - apply (setCustomFieldValue_one_match id k v j s E).
  - rewrite setCustomFieldValue_one_other by exact E. reflexivity.
Qed.

Lemma makeFieldId_jobs (name : string) (st : Store) :
  jobs (snd (makeFieldId name st)) = jobs st.
Proof.
  unfold makeFieldId. destruct (String.eqb _ ""); reflexivity.
Qed.

(* ------------------------------------------------------------------------- *)
(** ** The applicator loop *)

Definition toResult (a : AiAction) (r : string + (bool * string)) : ActionResult :=
  match r with
  | inr (b, msg) => {| action := a; ok := b; message := msg |}
  | inl msg => {| action := a; ok := false; message := msg |}
  end.

Lemma applyLoop_cons fields a rest results st :
  applyLoop fields (a :: rest) results st =
  applyLoop fields rest (results ++ [toResult a (fst (applyAction fields a st))])%list
            (snd (applyAction fields a st)).
Proof.
  simpl. destruct (applyAction fields a st) as [[msg | [b msg]] st']; reflexivity.
Qed.

Lemma applyLoop_acc fields acts results st :
  applyLoop fields acts results st =
  ((results ++ fst (applyLoop fields acts [] st))%list, snd (applyLoop fields acts [] st)).
Proof.
  revert results st. induction acts as [|a rest IH]; intros results st.
  - simpl. rewrite app_nil_r. reflexivity.
  - rewrite !applyLoop_cons. rewrite IH. rewrite (IH ([] ++ _)%list). simpl.
    rewrite <- app_assoc. reflexivity.
Qed.

Lemma applyLoop_app fields xs ys st :
  applyLoop fields (xs ++ ys) [] st =
  let '(r1, s1) := applyLoop fields xs [] st in
  let '(r2, s2) := applyLoop fields ys [] s1 in ((r1 ++ r2)%list, s2).
Proof.
  revert st. induction xs as [|a rest IH]; intro st.
  - simpl. destruct (applyLoop fields ys [] st). reflexivity.
  - simpl app. rewrite !applyLoop_cons. rewrite applyLoop_acc.
    rewrite (applyLoop_acc fields rest). rewrite IH.
    destruct (applyLoop fields rest [] _) as [r1 s1]. simpl.
    destruct (applyLoop fields ys [] s1) as [r2 s2]. reflexivity.
Qed.

Lemma applyLoop_results fields acts st :
  map action (fst (applyLoop fields acts [] st)) = acts.
Proof.
  revert st. induction acts as [|a rest IH]; intro st; [reflexivity|].
  rewrite applyLoop_cons, applyLoop_acc. simpl. rewrite IH.
  destruct (fst (applyAction fields a st)) as [msg | [b msg]]; reflexivity.
Qed.

Lemma ebind_lift {A B} (m : M A) (k : A -> EM B) (s : Store) :
  ebind (lift m) k s = k (fst (m s)) (snd (m s)).
Proof. unfold ebind, lift. destruct (m s). reflexivity. Qed.

Ltac crush_throw H :=
  repeat match type of H with
         | context [if ?b then _ else _] => destruct b
         | context [match ?x with Some _ => _ | None => _ end] => destruct x
         end;
  rewrite ?ebind_lift in H; unfold throw, eret in H;
  first [discriminate H | inversion H; reflexivity].

(** A thrown error leaves the store as the action found it: every [throw] in
    [applyAction] precedes the store operation. *)
Lemma applyAction_throw_keeps_store fields a s msg s' :
  applyAction fields a s = (inl msg, s') -> s' = s.
Proof.
  intro H. destruct a; simpl in H; crush_throw H.
Qed.

Lemma applyLoop_split fields pre a post st :
  applyLoop fields (pre ++ a :: post) [] st =
  let s1 := snd (applyLoop fields pre [] st) in
  let s2 := snd (applyAction fields a s1) in
  ((fst (applyLoop fields pre [] st) ++
    toResult a (fst (applyAction fields a s1)) :: fst (applyLoop fields post [] s2))%list,
   snd (applyLoop fields post [] s2)).
Proof.
  rewrite applyLoop_app. destruct (applyLoop fields pre [] st) as [r1 s1].
  rewrite applyLoop_cons, applyLoop_acc. reflexivity.
Qed.

(* ------------------------------------------------------------------------- *)
(** ** Objects and the normalizer *)

Lemma obj_get_set_same (o : obj) (k : string) (v : json) :
  obj_get (obj_set o k v) k = Some v.
Proof.
  induction o as [|[k' v'] rest IH]; simpl.
  - rewrite String.eqb_refl. reflexivity.
  - destruct (String.eqb k k') eqn:E; simpl.
    + rewrite E. reflexivity.
    + rewrite E. exact IH.
Qed.

Lemma obj_get_set_other (o : obj) (k k' : string) (v : json) :
  k' <> k -> obj_get (obj_set o k v) k' = obj_get o k'.
Proof.
  intro Hne. induction o as [|[k0 v0] rest IH]; simpl.
  - apply String.eqb_neq in Hne. rewrite Hne. reflexivity.
  - destruct (String.eqb k k0) eqn:E; simpl.
    + apply String.eqb_eq in E. subst k0.
      apply String.eqb_neq in Hne. rewrite Hne. reflexivity.
    + destruct (String.eqb k' k0); [reflexivity | exact IH].
Qed.

Lemma obj_get_delete_other (o : obj) (k k' : string) :
  k' <> k -> obj_get (obj_delete o k) k' = obj_get o k'.
Proof.
  intro Hne. induction o as [|[k0 v0] rest IH]; simpl; [reflexivity|].
  destruct (String.eqb k k0) eqn:E; simpl.
  - apply String.eqb_eq in E. subst k0.
    apply String.eqb_neq in Hne. rewrite Hne. reflexivity.
  - destruct (String.eqb k' k0); [reflexivity | exact IH].
Qed.

(** [sanitizeAction] reads its argument only through property reads. *)
Lemma sanitizeAction_ext (o1 o2 : obj) :
  (forall k, obj_get o1 k = obj_get o2 k) -> sanitizeAction o1 = sanitizeAction o2.
Proof. intro H. unfold sanitizeAction. rewrite !H. reflexivity. Qed.

Lemma action_type_nonempty (t : string) : In t ACTION_TYPES -> t <> "".
Proof. simpl. intros H E. subst t. repeat destruct H as [H|H]; discriminate || contradiction. Qed.

Lemma action_type_not_type (t : string) : In t ACTION_TYPES -> t <> "type".
Proof. simpl. intros H E. subst t. repeat destruct H as [H|H]; discriminate || contradiction. Qed.

Lemma toText_some (v : option json) (t : string) :
  toText v = Some t -> exists s, v = Some (JStr s) /\ t = trim s /\ t <> "".
Proof.
  unfold toText. destruct v as [[]|]; try discriminate.
  destruct (String.eqb (trim s) "") eqn:E; [discriminate|].
  intro H. inversion H; subst. exists s. repeat split.
  apply String.eqb_neq. exact E.
Qed.

Lemma toStatus_some (v : option json) (s : string) :
  toStatus v = Some s -> v = Some (JStr s) /\ In s STATUS_TYPES.
Proof.
  unfold toStatus. destruct v as [[]|]; try discriminate.
  destruct (set_has STATUS_TYPES s0) eqn:E; [|discriminate].
  intro H. inversion H; subst. split; [reflexivity|]. apply existsb_eqb_In. exact E.
Qed.

(** [arr.map(f)] where [f] may throw: each output is the image of an input. *)
Lemma map_throwing_in (f : json -> option json) (l ys : list json) (y : json) :
  map_throwing f l = Some ys -> In y ys -> exists x, In x l /\ f x = Some y.
Proof.
  revert ys. induction l as [|x rest IH]; intros ys H Hy; simpl in H.
  - inversion H; subst. contradiction.
  - destruct (f x) as [y0|] eqn:Ex; [|discriminate].
    destruct (map_throwing f rest) as [ys0|] eqn:Er; [|discriminate].
    inversion H; subst. destruct Hy as [<- | Hy].
    + exists x. split; [left; reflexivity | exact Ex].
    + destruct (IH ys0 eq_refl Hy) as [x' [Hx' Hf]]. exists x'. split; [right; exact Hx' | exact Hf].
Qed.

Lemma loadRecord_timeline (job r : json) :
  loadRecord job = Some r -> exists o tl, r = JObj o /\ obj_get o "timeline" = Some (JArr tl).
Proof.
  unfold loadRecord. destruct (ensureTimeline_json job) as [tl|]; [|discriminate].
  intro H. inversion H; subst. eexists _, tl. split; [reflexivity|]. apply obj_get_set_same.
Qed.

Lemma addJob_tags (input : JobInput) (st : Store) :
  exists j, jobs (snd (addJob input st)) = j :: jobs st /\
            tags j = default [] (input_tags input).
Proof.
  unfold addJob, loadJobsM, saveJobs. unfold_monad.
  destruct (input_appliedDate input) as [d|]; simpl;
    [destruct (String.eqb d "")|]; simpl; eexists; split; reflexivity.
Qed.

Lemma applyAction_addJob (fields : list CustomField) company role status appliedDate
      tags notes custom (st : Store) :
  company <> "" -> role <> "" ->
  applyAction fields (AddJob company role status appliedDate tags notes custom) st =
    (inr (true, "Job added"),
     snd (addJob {| input_company := company; input_role := role;
                    input_status := normalizeStatus status;
                    input_appliedDate := appliedDate;
                    input_tags := None;
                    input_notes := notes;
                    input_custom := option_map (fun c => normalizeCustomValues c fields) custom |}
                 st)).
Proof.
  intros Hc Hr. unfold applyAction, falsy.
  apply String.eqb_neq in Hc, Hr. rewrite Hc, Hr. cbn [orb].
  unfold ebind, lift, eret. destruct (addJob _ st). reflexivity.
Qed.

(* ------------------------------------------------------------------------- *)
(** ** Strings as lists of characters *)

Lemma las_app (a b : string) :
  list_ascii_of_string (a ++ b) = (list_ascii_of_string a ++ list_ascii_of_string b)%list.
Proof. induction a as [|c a IH]; simpl; [reflexivity | rewrite IH; reflexivity]. Qed.

Lemma las_inj (a b : string) : list_ascii_of_string a = list_ascii_of_string b -> a = b.
Proof.
  intro H. rewrite <- (string_of_list_ascii_of_string a), <- (string_of_list_ascii_of_string b).
  rewrite H. reflexivity.
Qed.

Lemma las_length (s : string) : String.length s = length (list_ascii_of_string s).
Proof. induction s as [|c s IH]; simpl; [reflexivity | rewrite IH; reflexivity]. Qed.

Lemma las_rev (s : string) : list_ascii_of_string (string_rev s) = rev (list_ascii_of_string s).
Proof. unfold string_rev. apply list_ascii_of_string_of_list_ascii. Qed.

Lemma las_trim_start (s : string) :
  list_ascii_of_string (trim_start s) = drop_while is_ws (list_ascii_of_string s).
Proof.
  induction s as [|c s IH]; simpl; [reflexivity|].
  destruct (is_ws c); [exact IH | reflexivity].
Qed.

Lemma las_trim (s : string) :
  list_ascii_of_string (trim s) =
  rev (drop_while is_ws (rev (drop_while is_ws (list_ascii_of_string s)))).
Proof. unfold trim. rewrite las_rev, las_trim_start, las_rev, las_trim_start. reflexivity. Qed.

Lemma drop_while_head (p : ascii -> bool) (l : list ascii) :
  drop_while p l = [] \/ exists c r, drop_while p l = c :: r /\ p c = false.
Proof.
  induction l as [|c l IH]; simpl; [left; reflexivity|].
  destruct (p c) eqn:E; [exact IH | right; exists c, l; auto].
Qed.

Lemma drop_while_fix (p : ascii -> bool) (l : list ascii) :
  (forall c r, l = c :: r -> p c = false) -> drop_while p l = l.
Proof. destruct l as [|c r]; intro H; simpl; [reflexivity|]. rewrite (H c r eq_refl). reflexivity. Qed.

Lemma drop_while_suffix (p : ascii -> bool) (l : list ascii) :
  exists q, l = (q ++ drop_while p l)%list.
Proof.
  induction l as [|c l [q Hq]]; simpl; [exists []; reflexivity|].
  destruct (p c); [exists (c :: q); simpl; rewrite <- Hq; reflexivity | exists []; reflexivity].
Qed.

Lemma drop_while_idem (p : ascii -> bool) (l : list ascii) :
  drop_while p (drop_while p l) = drop_while p l.
Proof.
  apply drop_while_fix. intros c r E.
  destruct (drop_while_head p l) as [H | [c' [r' [H Hc]]]]; rewrite H in E; [discriminate|].
  inversion E; subst. exact Hc.
Qed.

(** Dropping [p]-characters at both ends is idempotent. *)
Lemma drop_both_idem (p : ascii -> bool) (l : list ascii) :
  let r := rev (drop_while p (rev (drop_while p l))) in
  rev (drop_while p (rev (drop_while p r))) = r.
Proof.
  intro r.
  assert (Hr : drop_while p r = r).
  { apply drop_while_fix. intros c t E.
    destruct (drop_while_suffix p (rev (drop_while p l))) as [q Hq].
    assert (Hx : drop_while p l = (r ++ rev q)%list).
    { unfold r. rewrite <- rev_app_distr, <- Hq, rev_involutive. reflexivity. }
    destruct (drop_while_head p l) as [H | [c' [r' [H Hc]]]].
    - rewrite H in Hx. rewrite E in Hx. discriminate.
    - rewrite H, E in Hx. simpl in Hx. inversion Hx; subst. exact Hc. }
  rewrite Hr. unfold r. rewrite rev_involutive, drop_while_idem. reflexivity.
Qed.

Lemma trim_idem (s : string) : trim (trim s) = trim s.
Proof.
  apply las_inj. rewrite (las_trim (trim s)), las_trim. apply drop_both_idem.
Qed.

Lemma lower_ascii_idem (c : ascii) : lower_ascii (lower_ascii c) = lower_ascii c.
Proof. destruct c as [[] [] [] [] [] [] [] []]; reflexivity. Qed.

Lemma is_ws_lower (c : ascii) : is_ws (lower_ascii c) = is_ws c.
Proof. destruct c as [[] [] [] [] [] [] [] []]; reflexivity. Qed.

Lemma las_toLowerCase (s : string) :
  list_ascii_of_string (toLowerCase s) = map lower_ascii (list_ascii_of_string s).
Proof. induction s as [|c s IH]; simpl; [reflexivity | rewrite IH; reflexivity]. Qed.

Lemma toLowerCase_idem (s : string) : toLowerCase (toLowerCase s) = toLowerCase s.
Proof. induction s as [|c s IH]; simpl; [reflexivity | rewrite lower_ascii_idem, IH; reflexivity]. Qed.

Lemma drop_while_map (p : ascii -> bool) (f : ascii -> ascii) (l : list ascii) :
  (forall c, p (f c) = p c) -> drop_while p (map f l) = map f (drop_while p l).
Proof.
  intro Hf. induction l as [|c l IH]; simpl; [reflexivity|].
  rewrite Hf. destruct (p c); [exact IH | reflexivity].
Qed.

Lemma trim_toLowerCase (s : string) : trim (toLowerCase s) = toLowerCase (trim s).
Proof.
  apply las_inj. rewrite las_trim, !las_toLowerCase, las_trim.
  rewrite drop_while_map by exact is_ws_lower.
  rewrite <- map_rev, drop_while_map by exact is_ws_lower.
  rewrite map_rev. reflexivity.
Qed.

(* ------------------------------------------------------------------------- *)
(** ** Commands returned by the normalizer are well formed *)

Lemma toText_wf (v : option json) (t : string) : toText v = Some t -> trimmed_text t.
Proof.
  intro H. destruct (toText_some v t H) as [s [_ [-> Hne]]].
  split; [exact Hne | apply trim_idem].
Qed.

Lemma toOptionalText_wf (v : option json) : opt_prop trimmed_text (toOptionalText v).
Proof.
  unfold toOptionalText. destruct v as [[]|]; simpl; auto.
  destruct (String.eqb (trim s) "") eqn:E; simpl; auto.
  split; [apply String.eqb_neq; exact E | apply trim_idem].
Qed.

Lemma toStatus_wf (v : option json) : opt_prop (fun s => In s STATUS_TYPES) (toStatus v).
Proof.
  destruct (toStatus v) as [s|] eqn:E; simpl; [|exact I].
  apply (toStatus_some v s E).
Qed.

Lemma toStringArray_wf (v : option json) : opt_prop nonblank_items (toStringArray v).
Proof.
  unfold toStringArray, nonblank_items. destruct v as [[]|]; simpl; auto.
  - destruct (String.eqb (trim s) "") eqn:E; simpl; [constructor|].
    constructor; [|constructor]. rewrite trim_idem. apply String.eqb_neq. exact E.
  - apply Forall_forall. intros x Hx. apply filter_In in Hx. destruct Hx as [_ Hx].
    apply negb_true_iff, String.eqb_neq in Hx. exact Hx.
Qed.

Lemma toCustom_wf (v : option json) : opt_prop (fun m => m <> []) (toCustom v).
Proof.
  unfold toCustom. destruct v as [[]|]; simpl; auto.
  destruct (fold_left _ _ _); simpl; [exact I | discriminate].
Qed.

Lemma sanitizeAction_wf (o : obj) (a : AiAction) :
  sanitizeAction o = Some a -> well_formed_action a.
Proof.
  unfold sanitizeAction. intro H.
  destruct (obj_get o "type") as [[| | | ty | |]|]; try discriminate.
  repeat match type of H with
         | context [if String.eqb ty ?k then _ else _] => destruct (String.eqb ty k)
         end; try discriminate;
  repeat match type of H with
         | context [match toText ?v with Some _ => _ | None => _ end] =>
             let E := fresh "E" in destruct (toText v) eqn:E
         | context [match toStatus ?v with Some _ => _ | None => _ end] =>
             let E := fresh "E" in destruct (toStatus v) eqn:E
         end; try discriminate;
  inversion H; subst; clear H; simpl;
  repeat match goal with
         | E : toText _ = Some _ |- _ => apply toText_wf in E
         | E : toStatus _ = Some _ |- _ => apply toStatus_some in E; destruct E as [_ E]
         end;
  repeat split; try assumption; try apply toOptionalText_wf; try apply toStatus_wf;
  try apply toStringArray_wf; try apply toCustom_wf;
  try apply E; try apply E0.
  destruct (obj_get o "fieldType") as [[| | | ft | |]|]; simpl; auto 6.
  destruct (set_has FIELD_TYPES ft) eqn:Hs; pose proof Hs as Hs';
    unfold set_has, FIELD_TYPES in Hs'; simpl in Hs'; rewrite Hs'; [|simpl; auto 6].
  apply (proj1 (existsb_eqb_In ft FIELD_TYPES)). exact Hs.
Qed.

Lemma normalizeAction_sanitized (raw : json) (a : AiAction) :
  normalizeAction raw = Some a -> exists o, sanitizeAction o = Some a.
Proof.
  assert (Hw : forall r, normalizeWrapped r = Some a -> exists o, sanitizeAction o = Some a).
  { intros r. unfold normalizeWrapped. destruct (obj_keys r) as [|k [|]]; try discriminate.
    destruct (set_has ACTION_TYPES k); [|discriminate].
    destruct (obj_get r k) as [p|]; [|discriminate].
    destruct (is_object p); [|discriminate]. intro H'. eexists. exact H'. }
  unfold normalizeAction. intro H.
  destruct (is_object raw); cbn [negb] in H; [|discriminate]. cbv zeta in H.
  destruct (obj_get (own_props raw) "type") as [[| | | t | |]|]; try exact (Hw _ H).
  match type of H with
  | context [if ?c then _ else _] => destruct c; [eexists; exact H | exact (Hw _ H)]
  end.
Qed.

Lemma normalizeAiResponse_in (raw : json) (a : AiAction) :
  In a (actions (normalizeAiResponse raw)) -> exists r, normalizeAction r = Some a.
Proof.
  unfold normalizeAiResponse. destruct (negb (is_object raw)); simpl; [contradiction|].
  intro H. apply in_flat_map in H. destruct H as [r [_ Hr]].
  destruct (normalizeAction r) eqn:E; [|contradiction].
  destruct Hr as [<- | []]. exists r. exact E.
Qed.

Lemma normalizeAiResponse_wf (raw : json) (a : AiAction) :
  In a (actions (normalizeAiResponse raw)) -> well_formed_action a.
Proof.
  intro H. destruct (normalizeAiResponse_in raw a H) as [r Hr].
  destruct (normalizeAction_sanitized r a Hr) as [o Ho].
  exact (sanitizeAction_wf o a Ho).
Qed.

Lemma trimmed_falsy (x : string) : trimmed_text x -> falsy x = false.
Proof. intros [H _]. apply String.eqb_neq. exact H. Qed.

Lemma applyAction_wf (fields : list CustomField) (a : AiAction) (st : Store) :
  well_formed_action a ->
  (exists id tag, a = AddTag id tag /\
     applyAction fields a st = (inr (false, "Unsupported action: add_tag"), st)) \/
  (exists msg st', applyAction fields a st = (inr (true, msg), st')).
Proof.
  intro Hwf. destruct a; simpl in Hwf; try contradiction;
    try (left; eexists _, _; split; reflexivity); right;
    unfold applyAction;
    repeat match goal with
           | H : _ /\ _ |- _ => destruct H
           | H : trimmed_text ?x |- _ => rewrite (trimmed_falsy x H); clear H
           end; cbn [orb].
  all: try (rewrite ebind_lift; unfold eret; eexists _, _; reflexivity).
  all: match goal with
       | |- context [falsy ?x] =>
           let Hx := fresh "Hx" in
           assert (Hx : falsy x = false)
             by (unfold falsy; apply String.eqb_neq; intro E; subst x; simpl in *;
                 intuition discriminate);
           rewrite Hx
       end.
  - unfold normalizeStatus, truthy. unfold falsy in Hx. rewrite Hx.
    cbn [negb template].
    match goal with
    | |- context [set_has allowedStatuses ?x] =>
        assert (Hs : set_has allowedStatuses x = true) by (apply existsb_eqb_In; exact H0);
        rewrite Hs
    end.
    rewrite ebind_lift. unfold eret. eexists _, _. reflexivity.
  - rewrite ebind_lift. unfold eret. eexists _, _. reflexivity.
Qed.

Lemma applyLoop_forall (P : ActionResult -> Prop) fields acts st :
  (forall a s, In a acts -> P (toResult a (fst (applyAction fields a s)))) ->
  Forall P (fst (applyLoop fields acts [] st)).
Proof.
  revert st. induction acts as [|a rest IH]; intros st H; [constructor|].
  rewrite applyLoop_cons, applyLoop_acc. cbn [fst app].
  constructor; [apply H; left; reflexivity|].
  apply IH. intros a' s Ha'. apply H. right. exact Ha'.
Qed.

(* ------------------------------------------------------------------------- *)
(** ** Custom maps *)

Lemma custom_get_set_same (m : custom_map) (k : string) (v : scalar) :
  custom_get (custom_set m k v) k = Some v.
Proof.
  induction m as [|[k' v'] rest IH]; simpl.
  - rewrite String.eqb_refl. reflexivity.
  - destruct (String.eqb k k') eqn:E; simpl; rewrite E; [reflexivity | exact IH].
Qed.

Lemma custom_get_set_other (m : custom_map) (k k' : string) (v : scalar) :
  k' <> k -> custom_get (custom_set m k v) k' = custom_get m k'.
Proof.
  intro Hne. induction m as [|[k0 v0] rest IH]; simpl.
  - apply String.eqb_neq in Hne. rewrite Hne. reflexivity.
  - destruct (String.eqb k k0) eqn:E; simpl.
    + apply String.eqb_eq in E. subst k0. apply String.eqb_neq in Hne. rewrite Hne. reflexivity.
    + destruct (String.eqb k' k0); [reflexivity | exact IH].
Qed.

Lemma custom_get_notin (m : custom_map) (k : string) :
  ~ In k (map fst m) -> custom_get m k = None.
Proof.
  induction m as [|[k0 v0] rest IH]; simpl; intro H; [reflexivity|].
  destruct (String.eqb_spec k k0) as [->|Hne]; [exfalso; apply H; left; reflexivity|].
  apply IH. intro H'. apply H. right. exact H'.
Qed.

Lemma custom_get_nil (m : custom_map) : (forall k, custom_get m k = None) -> m = [].
Proof.
  destruct m as [|[k v] rest]; intro H; [reflexivity|].
  specialize (H k). simpl in H. rewrite String.eqb_refl in H. discriminate.
Qed.

(** [Object.assign]-style writes of a list of distinct keys. *)
Lemma fold_set_get (l acc : custom_map) (key : string) :
  NoDup (map fst l) ->
  custom_get (fold_left (fun m kv => custom_set m (fst kv) (snd kv)) l acc) key =
  match custom_get l key with Some v => Some v | None => custom_get acc key end.
Proof.
  revert acc. induction l as [|[k v] rest IH]; intros acc Hnd; simpl; [reflexivity|].
  inversion Hnd as [|? ? Hk Hnd']; subst. rewrite IH by exact Hnd'.
  destruct (String.eqb_spec key k) as [->|Hne].
  - rewrite custom_get_notin by exact Hk. apply custom_get_set_same.
  - destruct (custom_get rest key); [reflexivity|]. apply custom_get_set_other. exact Hne.
Qed.

Lemma custom_merge_get (a b : custom_map) (key : string) :
  NoDup (map fst b) ->
  custom_get (custom_merge a b) key =
  match custom_get b key with Some v => Some v | None => custom_get a key end.
Proof. intro H. unfold custom_merge. apply fold_set_get. exact H. Qed.



(* ------------------------------------------------------------------------- *)
(** ** Tags as a set (membership) *)

Lemma set_add_iff (xs : list string) (y x : string) : In x (set_add xs y) <-> In x xs \/ x = y.
Proof.
  unfold set_add. destruct (existsb (String.eqb y) xs) eqn:E.
  - apply existsb_eqb_In in E. split; [auto|]. intros [H | ->]; auto.
  - rewrite in_app_iff. simpl. intuition.
Qed.

Lemma set_from_iff (l : list string) (x : string) : In x (set_from l) <-> In x l.
Proof.
  unfold set_from. cut (forall acc, In x (fold_left set_add l acc) <-> In x acc \/ In x l).
  { intro H. rewrite H. simpl. tauto. }
  induction l as [|y rest IH]; intro acc; simpl; [tauto|].
  rewrite IH, set_add_iff. intuition.
Qed.

(* ------------------------------------------------------------------------- *)
(** ** Record ids *)

Lemma map_jobs_ids (f : Job -> M Job) (l : list Job) (st : Store) :
  (forall j s, job_id (fst (f j s)) = job_id j) ->
  map job_id (fst (map_jobs f l st)) = map job_id l.
Proof.
  intro Hf. revert st. induction l as [|x rest IH]; intro st; [reflexivity|].
  rewrite map_jobs_cons. destruct (f x st) as [x' st1] eqn:Ex.
  destruct (map_jobs f rest st1) as [r st2] eqn:Er. simpl.
  pose proof (Hf x st) as Hx. rewrite Ex in Hx. simpl in Hx. rewrite Hx.
  pose proof (IH st1) as Hr. rewrite Er in Hr. simpl in Hr. rewrite Hr. reflexivity.
Qed.

Lemma updateJob_one_id id p j s : job_id (fst (updateJob_one id p j s)) = job_id j.
Proof.
  destruct (String.eqb_spec (job_id j) id) as [E|E].
  - unfold updateJob_one. rewrite E, String.eqb_refl. simpl. unfold_monad.
    split_cases; reflexivity.
  - rewrite updateJob_one_other by exact E. reflexivity.
Qed.

Lemma setStatus_one_id id x j s : job_id (fst (setStatus_one id x j s)) = job_id j.
Proof.
  destruct (String.eqb_spec (job_id j) id) as [E|E].
  - rewrite (proj1 (setStatus_one_match id x j s E)). symmetry. exact E.
  - rewrite setStatus_one_other by exact E. reflexivity.
Qed.

Lemma addTag_one_id id x j s : job_id (fst (addTag_one id x j s)) = job_id j.
Proof.
  destruct (String.eqb_spec (job_id j) id) as [E|E].
  - rewrite (proj1 (addTag_one_match id x j s E)). symmetry. exact E.
  - rewrite addTag_one_other by exact E. reflexivity.
Qed.

Lemma addNote_one_id id x j s : job_id (fst (addNote_one id x j s)) = job_id j.
Proof.
  destruct (String.eqb_spec (job_id j) id) as [E|E].
  - rewrite (proj1 (addNote_one_match id x j s E)). symmetry. exact E.
  - rewrite addNote_one_other by exact E. reflexivity.
Qed.

Lemma setNote_one_id id x j s : job_id (fst (setNote_one id x j s)) = job_id j.
Proof.
  destruct (String.eqb_spec (job_id j) id) as [E|E].
  - rewrite (proj1 (setNote_one_match id x j s E)). symmetry. exact E.
  - rewrite setNote_one_other by exact E. reflexivity.
Qed.

Lemma setCustomFieldValue_one_id id k v j s :
  job_id (fst (setCustomFieldValue_one id k v j s)) = job_id j.
Proof.
  destruct (String.eqb_spec (job_id j) id) as [E|E].
  - rewrite (proj1 (setCustomFieldValue_one_match id k v j s E)). symmetry. exact E.
  - rewrite setCustomFieldValue_one_other by exact E. reflexivity.
Qed.

(* ------------------------------------------------------------------------- *)
(** ** Schema and clock *)

Lemma map_jobs_store (f : Job -> M Job) (l : list Job) (st : Store) :
  (forall j s, schema (snd (f j s)) = schema s /\ clock (snd (f j s)) = clock s) ->
  schema (snd (map_jobs f l st)) = schema st /\ clock (snd (map_jobs f l st)) = clock st.
Proof.
  intro Hf. revert st. induction l as [|x rest IH]; intro st; [split; reflexivity|].
  rewrite map_jobs_cons. destruct (f x st) as [x' st1] eqn:Ex.
  destruct (map_jobs f rest st1) as [r st2] eqn:Er. simpl.
  pose proof (Hf x st) as Hx. rewrite Ex in Hx. simpl in Hx.
  pose proof (IH st1) as Hr. rewrite Er in Hr. simpl in Hr.
  destruct Hx, Hr. split; congruence.
Qed.

(* ------------------------------------------------------------------------- *)
(** ** Schema operations *)

Lemma makeFieldId_store (name : string) (st : Store) :
  jobs (snd (makeFieldId name st)) = jobs st /\
  schema (snd (makeFieldId name st)) = schema st /\
  clock (snd (makeFieldId name st)) = clock st.
Proof. unfold makeFieldId. destruct (String.eqb _ ""); repeat split. Qed.



(* ------------------------------------------------------------------------- *)
(** ** Prefixes, field ids and summaries *)

Lemma las_substring0 (n : nat) (s : string) : list_ascii_of_string (substring 0 n s) = firstn n (list_ascii_of_string s).
Proof.
  revert n. induction s as [|c s IH]; intro n; destruct n as [|n]; simpl; try reflexivity.
  rewrite IH. reflexivity.
Qed.

(** Dropping [p]-characters at both ends keeps a prefix of the left-trimmed list, whose
    first character is not a [p]-character. *)
Lemma drop_both_prefix (p : ascii -> bool) (l : list ascii) :
  exists q, drop_while p l = (rev (drop_while p (rev (drop_while p l))) ++ q)%list.
Proof.
  destruct (drop_while_suffix p (rev (drop_while p l))) as [q Hq].
  exists (rev q). rewrite <- rev_app_distr, <- Hq, rev_involutive. reflexivity.
Qed.

Lemma drop_both_head (p : ascii -> bool) (l : list ascii) (c : ascii) (r : list ascii) :
  rev (drop_while p (rev (drop_while p l))) = c :: r -> p c = false.
Proof.
  intro E. destruct (drop_both_prefix p l) as [q Hq]. rewrite E in Hq.
  destruct (drop_while_head p l) as [H | [c' [r' [H Hc]]]]; rewrite H in Hq;
    [discriminate | inversion Hq; subst; exact Hc].
Qed.


Lemma Forall_firstn {A} (P : A -> Prop) (n : nat) (l : list A) :
  Forall P l -> Forall P (firstn n l).
Proof.
  intro H. rewrite <- (firstn_skipn n l) in H. apply Forall_app in H. exact (proj1 H).
Qed.





Lemma collapse_ws_chars (s : string) (b : bool) :
  Forall (fun c => is_ws c = false \/ c = " "%char) (list_ascii_of_string (collapse_ws s b)).
Proof.
  revert b. induction s as [|c s IH]; intro b; simpl; [constructor|].
  destruct (is_ws c) eqn:E.
  - destruct b; [apply IH | simpl; constructor; [right; reflexivity | apply IH]].
  - simpl. constructor; [left; exact E | apply IH].
Qed.

Lemma collapse_ws_head (s : string) (b : bool) (c : ascii) (rest : string) :
  (forall c0 s0, s = String c0 s0 -> is_ws c0 = false) ->
  collapse_ws s b = String c rest -> is_ws c = false.
Proof.
  intro Hs. destruct s as [|c0 s0]; simpl; [discriminate|].
  rewrite (Hs c0 s0 eq_refl). intro H. inversion H; subst. exact (Hs c s0 eq_refl).
Qed.

Lemma trim_head (s : string) (c0 : ascii) (s0 : string) :
  trim s = String c0 s0 -> is_ws c0 = false.
Proof.
  intro H. apply (f_equal list_ascii_of_string) in H. rewrite las_trim in H. simpl in H.
  exact (drop_both_head is_ws (list_ascii_of_string s) c0 (list_ascii_of_string s0) H).
Qed.

(* ------------------------------------------------------------------------- *)
(** ** What the applicator leaves alone *)

Lemma map_mutation_frame (f : Job -> M Job) (st : Store) :
  (forall j s, frame s (snd (f j s))) -> frame st (snd (map_mutation f st)).
Proof.
  intro Hf. unfold map_mutation, bind, loadJobsM, saveJobs. cbn.
  pose proof (map_jobs_store f (jobs st) st) as H.
  destruct (map_jobs f (jobs st) st) as [r st2]. simpl in *. apply H.
  intros j s. exact (Hf j s).
Qed.

Lemma addJob_frame (input : JobInput) (s : Store) : frame s (snd (addJob input s)).
Proof.
  unfold frame, addJob, loadJobsM, saveJobs. unfold_monad. split_cases; split; reflexivity.
Qed.

Lemma updateJob_frame id p s : frame s (snd (updateJob id p s)).
Proof.
  apply (map_mutation_frame (updateJob_one id p)). intros j s'.
  unfold frame, updateJob_one. destruct (negb (String.eqb (job_id j) id));
    unfold_monad; split_cases; split; reflexivity.
Qed.

Lemma setStatus_frame id x s : frame s (snd (setStatus id x s)).
Proof.
  apply (map_mutation_frame (setStatus_one id x)). intros j s'.
  unfold frame, setStatus_one. destruct (negb (String.eqb (job_id j) id));
    unfold_monad; split_cases; split; reflexivity.
Qed.

Lemma addNote_frame id x s : frame s (snd (addNote id x s)).
Proof.
  apply (map_mutation_frame (addNote_one id x)). intros j s'.
  unfold frame, addNote_one. destruct (negb (String.eqb (job_id j) id));
    unfold_monad; split_cases; split; reflexivity.
Qed.

Lemma deleteJob_frame id s : frame s (snd (deleteJob id s)).
Proof. split; reflexivity. Qed.

Lemma upsertCustomField_clock name type s :
  clock (snd (upsertCustomField name type s)) = clock s.
Proof.
  unfold upsertCustomField, bind, loadSchemaM, saveSchema, ret.
  pose proof (makeFieldId_store name s) as [_ [_ Hc]].
  destruct (makeFieldId name s) as [id s1]. exact Hc.
Qed.

Lemma applyAction_frame fields a s :
  clock (snd (applyAction fields a s)) = clock s /\
  ((forall n t, a <> AddCustomField n t) -> schema (snd (applyAction fields a s)) = schema s).
Proof.
  destruct a; unfold applyAction;
    repeat match goal with
           | |- context [if ?b then _ else _] => destruct b
           | |- context [match ?x with Some _ => _ | None => _ end] => destruct x
           end;
    rewrite ?ebind_lift; unfold throw, eret; cbn [snd];
    try (split; [reflexivity | intros; reflexivity]).
  all: try match goal with
            | |- context [snd (addJob ?i ?s)] => destruct (addJob_frame i s); auto
            | |- context [snd (updateJob ?i ?p ?s)] => destruct (updateJob_frame i p s); auto
            | |- context [snd (setStatus ?i ?x ?s)] => destruct (setStatus_frame i x s); auto
            | |- context [snd (addNote ?i ?x ?s)] => destruct (addNote_frame i x s); auto
            | |- context [snd (deleteJob ?i ?s)] => destruct (deleteJob_frame i s); auto
            end.
  split; [apply upsertCustomField_clock|]. intro H. exfalso. exact (H _ _ eq_refl).
Qed.

Lemma applyAction_failed_keeps_store fields a s r s' :
  applyAction fields a s = (r, s') -> ok (toResult a r) = false -> s' = s.
Proof.
  intros H Hok. destruct r as [msg | [b msg]].
  - exact (applyAction_throw_keeps_store fields a s msg s' H).
  - simpl in Hok. subst b.
    destruct a; unfold applyAction in H;
      repeat match type of H with
             | context [if ?b then _ else _] => destruct b
             | context [match ?x with Some _ => _ | None => _ end] => destruct x
             end;
      rewrite ?ebind_lift in H; unfold throw, eret in H; inversion H; reflexivity.
Qed.

(* ------------------------------------------------------------------------- *)
(** ** Searching and slicing strings *)

Lemma index_of_char_app (c : ascii) (a b : string) :
  index_of_char c (a ++ b) =
  match index_of_char c a with
  | Some i => Some i
  | None => option_map (fun i => String.length a + i) (index_of_char c b)
  end.
Proof.
  induction a as [|c0 a IH]; simpl.
  - destruct (index_of_char c b); reflexivity.
  - destruct (Ascii.eqb c c0); [reflexivity|]. rewrite IH.
    destruct (index_of_char c a); [reflexivity|]. destruct (index_of_char c b); reflexivity.
Qed.

Lemma last_index_of_char_app (c : ascii) (a b : string) :
  last_index_of_char c (a ++ b) =
  match last_index_of_char c b with
  | Some i => Some (String.length a + i)
  | None => last_index_of_char c a
  end.
Proof.
  induction a as [|c0 a IH]; simpl.
  - destruct (last_index_of_char c b); reflexivity.
  - rewrite IH. destruct (last_index_of_char c b); reflexivity.
Qed.

Lemma substring_app_left (a b : string) (n : nat) :
  substring (String.length a) n (a ++ b) = substring 0 n b.
Proof. induction a as [|c a IH]; simpl; [reflexivity | exact IH]. Qed.

Lemma substring_prefix (a b : string) : substring 0 (String.length a) (a ++ b) = a.
Proof. induction a as [|c a IH]; simpl; [destruct b; reflexivity | rewrite IH; reflexivity]. Qed.

Lemma string_length_app (a b : string) :
  String.length (a ++ b) = String.length a + String.length b.
Proof. induction a as [|c a IH]; simpl; [reflexivity | rewrite IH; reflexivity]. Qed.

Lemma string_app_assoc (a b c : string) : (a ++ b) ++ c = a ++ (b ++ c).
Proof. induction a as [|x a IH]; simpl; [reflexivity | rewrite IH; reflexivity]. Qed.

(* ------------------------------------------------------------------------- *)
(** ** parseCsv on quoted input *)

Lemma string_app_nil_r (s : string) : s ++ "" = s.
Proof. induction s as [|c s IH]; simpl; [reflexivity | rewrite IH; reflexivity]. Qed.

Lemma append_one (cur : string) (c : ascii) (s : string) :
  (cur ++ String c "") ++ s = cur ++ String c s.
Proof. rewrite string_app_assoc. reflexivity. Qed.

(** Inside quotes: an escaped cell body and its closing quote. *)
Lemma parseCsv_quoted_body (x rest : list ascii) rows row (cur : string) :
  hd_error rest <> Some dq ->
  parseCsv_loop (csv_escape x ++ dq :: rest) rows row cur true =
  parseCsv_loop rest rows row (cur ++ string_of_list_ascii x) false.
Proof.
  intro Hr. revert cur. induction x as [|c x IH]; intro cur.
  - simpl. rewrite string_app_nil_r. destruct rest as [|c2 rest']; [reflexivity|].
    simpl in Hr. simpl.
    destruct (Ascii.eqb c2 dq) eqn:E; [apply Ascii.eqb_eq in E; subst; congruence | reflexivity].
  - cbn [csv_escape]. destruct (Ascii.eqb c dq) eqn:E.
    + apply Ascii.eqb_eq in E. subst c. cbn [app parseCsv_loop].
      rewrite Ascii.eqb_refl. cbn [andb]. rewrite IH.
      rewrite string_app_assoc. reflexivity.
    + cbn [app parseCsv_loop]. rewrite E. cbn [andb negb].
      rewrite !andb_false_r. rewrite IH. rewrite append_one. reflexivity.
Qed.

Lemma parseCsv_open_quote (t : list ascii) rows row (cur : string) :
  parseCsv_loop (dq :: t) rows row cur false = parseCsv_loop t rows row cur true.
Proof. destruct t; reflexivity. Qed.

Lemma parseCsv_cell (cell : string) (rest : list ascii) rows row :
  hd_error rest <> Some dq ->
  parseCsv_loop (csv_cell cell ++ rest) rows row "" false =
  parseCsv_loop rest rows row cell false.
Proof.
  intro Hr. unfold csv_cell. cbn [app].
  rewrite <- app_assoc. cbn [app]. rewrite parseCsv_open_quote.
  rewrite parseCsv_quoted_body by exact Hr.
  rewrite string_of_list_ascii_of_string. reflexivity.
Qed.

Lemma parseCsv_row (r : list string) (c : string) (rest : list ascii) rows row :
  hd_error rest <> Some dq ->
  parseCsv_loop (csv_row (r ++ [c]) ++ rest) rows row "" false =
  parseCsv_loop rest rows (row ++ r)%list c false.
Proof.
  intro Hr. revert row. induction r as [|c0 r IH]; intro row.
  - simpl. rewrite app_nil_r. apply parseCsv_cell. exact Hr.
  - replace (csv_row ((c0 :: r) ++ [c])) with (csv_cell c0 ++ comma :: csv_row (r ++ [c]))%list
      by (simpl; destruct (r ++ [c])%list eqn:E; [destruct r; discriminate | reflexivity]).
    rewrite <- app_assoc. cbn [app]. rewrite parseCsv_cell by (simpl; discriminate).
    cbn [parseCsv_loop]. cbn [Ascii.eqb comma dq lf cr]. cbn [andb negb].
    rewrite IH. rewrite <- app_assoc. reflexivity.
Qed.

Lemma parseCsv_sep (sep rest : list ascii) rows row cur :
  sep_ok sep -> hd_error rest <> Some lf ->
  parseCsv_loop (sep ++ rest) rows row cur false =
  parseCsv_loop rest (flushRow rows row cur) [] "" false.
Proof.
  intros [-> | [-> | ->]] Hr; cbn [app parseCsv_loop]; cbn [Ascii.eqb dq lf cr andb negb];
    [reflexivity | reflexivity |].
  destruct rest as [|c2 rest']; [reflexivity|]. simpl in Hr.
  destruct (Ascii.eqb c2 lf) eqn:E; [apply Ascii.eqb_eq in E; subst; congruence | reflexivity].
Qed.

Lemma csv_row_head (r : list string) (rest : list ascii) :
  r <> [] -> hd_error (csv_row r ++ rest) = Some dq.
Proof. destruct r as [|c [|c' r']]; intro H; [congruence | reflexivity | reflexivity]. Qed.

Lemma csv_rows_head sep (r : list string) (rs : list (list string)) (rest : list ascii) :
  r <> [] -> hd_error (csv_rows sep (r :: rs) ++ rest) = Some dq.
Proof.
  intro Hr. destruct rs as [|r' rs]; cbn [csv_rows];
    [|rewrite <- app_assoc]; apply csv_row_head; exact Hr.
Qed.

Lemma flushRow_row (rows : list (list string)) (r : list string) (c : string) :
  csv_row_ok (r ++ [c]) -> flushRow rows r c = (rows ++ [r ++ [c]])%list.
Proof.
  intros [_ Hne]. unfold flushRow.
  destruct r as [|x r]; [|reflexivity]. destruct c as [|a c]; [contradiction Hne; reflexivity|].
  reflexivity.
Qed.

Lemma csv_rows_cons2 sep (r r' : list string) (rs : list (list string)) :
  csv_rows sep (r :: r' :: rs) = (csv_row r ++ sep ++ csv_rows sep (r' :: rs))%list.
Proof. reflexivity. Qed.

Lemma parseCsv_sep_end (sep : list ascii) rows :
  sep_ok sep -> parseCsv_loop sep rows [] "" false = rows.
Proof. intros [-> | [-> | ->]]; reflexivity. Qed.

Lemma parseCsv_rows sep (rows acc : list (list string)) (rest : list ascii) :
  sep_ok sep -> Forall csv_row_ok rows ->
  (rest = [] \/ rest = sep) ->
  parseCsv_loop (csv_rows sep rows ++ rest) acc [] "" false = (acc ++ rows)%list.
Proof.
  intros Hsep Hok Hrest. revert acc. induction rows as [|r rs IH]; intro acc.
  - rewrite app_nil_r. destruct Hrest as [-> | ->]; [reflexivity|].
    apply parseCsv_sep_end. exact Hsep.
  - inversion Hok as [|? ? Hr Hrs]; subst.
    destruct (exists_last (proj1 Hr)) as [init [c Hic]]. rewrite Hic in Hr |- *.
    destruct rs as [|r' rs'].
    + cbn [csv_rows]. rewrite parseCsv_row; cbn [app].
      * destruct Hrest as [-> | ->].
        -- simpl. rewrite flushRow_row by exact Hr. reflexivity.
        -- rewrite <- (app_nil_r sep) at 1. rewrite parseCsv_sep by (auto; discriminate).
           rewrite flushRow_row by exact Hr. reflexivity.
      * destruct Hrest as [-> | ->]; [discriminate|].
        destruct Hsep as [-> | [-> | ->]]; discriminate.
    + rewrite csv_rows_cons2, <- !app_assoc. rewrite parseCsv_row; cbn [app].
      * rewrite parseCsv_sep.
        -- rewrite flushRow_row by exact Hr. rewrite IH by exact Hrs.
           rewrite <- app_assoc. reflexivity.
        -- exact Hsep.
        -- inversion Hrs as [|? ? [Hr' _] _]; subst.
           rewrite csv_rows_head by exact Hr'. discriminate.
      * destruct Hsep as [-> | [-> | ->]]; discriminate.
Qed.

(* ------------------------------------------------------------------------- *)
(** ** CSV import *)

Lemma addJob_record (input : JobInput) (st : Store) :
  exists j, jobs (snd (addJob input st)) = j :: jobs st /\
    company j = input_company input /\ role j = input_role input /\
    status j = default "applied" (input_status input).
Proof.
  unfold addJob, loadJobsM, saveJobs. unfold_monad.
  destruct (input_appliedDate input) as [d|]; simpl;
    [destruct (String.eqb d "")|]; simpl; eexists; repeat split.
Qed.

Lemma truthy_some (x : option string) : truthy x = true -> exists s, x = Some s /\ s <> "".
Proof.
  destruct x as [s|]; simpl; [|discriminate]. intro H. exists s. split; [reflexivity|].
  apply negb_true_iff, String.eqb_neq in H. exact H.
Qed.

Lemma importInputs_spec (inputs : list ImportInput) (added : nat) (st : Store) :
  Forall clean_input inputs ->
  fst (importInputs inputs added st) = added + length (filter importable inputs) /\
  exists new, jobs (snd (importInputs inputs added st)) = (new ++ jobs st)%list /\
    length new = length (filter importable inputs) /\ Forall imported_record new.
Proof.
  revert added st. induction inputs as [|i rest IH]; intros added st Hc.
  - split; [simpl; lia|]. exists []. repeat split. constructor.
  - inversion Hc as [|? ? [Hco [Hro Hst]] Hrest]; subst. cbn [importInputs filter].
    destruct (truthy (imp_company i)) eqn:Ec; [destruct (truthy (imp_role i)) eqn:Er|];
      (assert (Hi : importable i = (truthy (imp_company i) && truthy (imp_role i)))
         by reflexivity; rewrite Ec in Hi; try rewrite Er in Hi; cbn [andb] in Hi;
       rewrite Hi); cbn [negb orb andb].
    + unfold bind. destruct (addJob_record
        {| input_company := template (imp_company i); input_role := template (imp_role i);
           input_status := imp_status i; input_appliedDate := imp_appliedDate i;
           input_tags := None;
           input_notes := if truthy (imp_note i) then Some [template (imp_note i)] else None;
           input_custom := None |} st) as [j [Hj [Hjc [Hjr Hjs]]]].
      destruct (addJob _ st) as [id st1] eqn:Ea. simpl in Hj, Hjc, Hjr, Hjs.
      destruct (IH (S added) st1 Hrest) as [Hn [new [Hnew [Hlen Hall]]]].
      split; [simpl; rewrite Hn; rewrite <- plus_n_Sm; reflexivity|].
      exists (new ++ [j])%list. split; [rewrite Hnew, Hj, <- app_assoc; reflexivity|].
      split; [rewrite length_app, Hlen; simpl; lia|].
      apply Forall_app. split; [exact Hall|]. constructor; [|constructor].
      destruct (truthy_some _ Ec) as [c [Hc1 Hc2]]. destruct (truthy_some _ Er) as [r [Hr1 Hr2]].
      rewrite Hc1 in Hco, Hjc. rewrite Hr1 in Hro, Hjr. simpl in Hco, Hro, Hjc, Hjr.
      split; [|split].
      * rewrite Hjc. split; assumption.
      * rewrite Hjr. split; assumption.
      * rewrite Hjs. destruct (imp_status i) as [x|]; simpl in Hst |- *; [exact Hst|].
        left. reflexivity.
    + apply IH. exact Hrest.
    + apply IH. exact Hrest.
Qed.

Lemma csv_get_trimmed (headers row : list string) (name : string) :
  opt_prop (fun s => trim s = s) (csv_get headers row name).
Proof.
  unfold csv_get. destruct (index_of_str headers name) as [k|]; simpl; [|reflexivity].
  destruct (nth_error row k); simpl; [apply trim_idem | exact I].
Qed.

Lemma App_normalizeStatus_allowed (v : option string) :
  opt_prop (fun s => In s allowedStatuses) (App_normalizeStatus v).
Proof.
  unfold App_normalizeStatus. destruct (negb (truthy v)); [exact I|]. cbv zeta.
  destruct (set_has allowedStatuses (trim (toLowerCase (template v)))) eqn:E; [|exact I].
  cbn [opt_prop].
  apply existsb_eqb_In. exact E.
Qed.

Lemma csvRowToInput_clean (headers row : list string) : clean_input (csvRowToInput headers row).
Proof.
  unfold clean_input, csvRowToInput. cbn [imp_company imp_role imp_status].
  split; [apply csv_get_trimmed|]. split; [apply csv_get_trimmed|].
  apply App_normalizeStatus_allowed.
Qed.

(* ========================================================================= *)
(** * Claims *)

(** C8: for an id held by no record, [updateJob], [setStatus], [addTag],
    [addNote], [setNote], [setCustomFieldValue] and [deleteJob] are silent
    no-ops: each returns normally (the operations are total functions of the
    store) and the stored collection is exactly the collection before. *)
Theorem mutators_missing_id_noop (st : Store) (id : string)
  (Hmissing : ~ In id (map job_id (jobs st))) :
  (forall p, jobs (snd (updateJob id p st)) = jobs st) /\
  (forall s, jobs (snd (setStatus id s st)) = jobs st) /\
  (forall tag, jobs (snd (addTag id tag st)) = jobs st) /\
  (forall note, jobs (snd (addNote id note st)) = jobs st) /\
  (forall note, jobs (snd (setNote id note st)) = jobs st) /\
  (forall k v, jobs (snd (setCustomFieldValue id k v st)) = jobs st) /\
  jobs (snd (deleteJob id st)) = jobs st.
Proof.
  repeat split; intros.
  - apply (map_mutation_missing (updateJob_one id p) id); auto using updateJob_one_other.
  - apply (map_mutation_missing (setStatus_one id s) id); auto using setStatus_one_other.
  - apply (map_mutation_missing (addTag_one id tag) id); auto using addTag_one_other.
  - apply (map_mutation_missing (addNote_one id note) id); auto using addNote_one_other.
  - apply (map_mutation_missing (setNote_one id note) id); auto using setNote_one_other.
  - apply (map_mutation_missing (setCustomFieldValue_one id k v) id);
      auto using setCustomFieldValue_one_other.
  - unfold deleteJob, bind, loadJobsM, saveJobs. simpl.
    apply filter_keep_all. intros j Hj. apply negb_true_iff, String.eqb_neq.
    intro E. apply Hmissing. rewrite <- E. apply in_map. exact Hj.
Qed.

Lemma mutators_missing_id_noop_witness :
  ~ In "job-9" (map job_id (jobs sample_store)) /\
  jobs (snd (setStatus "job-9" "offer" sample_store)) = jobs sample_store.
Proof.
  split.
  - simpl. intros [H | H]; [discriminate | exact H].
  - apply (mutators_missing_id_noop sample_store "job-9").
    simpl. intros [H | H]; [discriminate | exact H].
Defined.

(** C4: [addJob] puts the new record at the head of the collection; with no
    status given its status is ['applied']; its timeline is exactly one
    ['created'] event then exactly one ['status_changed'] event, both stamped
    with the creation time, followed by one ['applied_date_updated'] event
    exactly when an applied date is supplied (a non-empty string: the source
    tests [if (input.appliedDate)]). *)
Theorem addJob_initial_timeline (input : JobInput) (st : Store) :
  exists j,
    jobs (snd (addJob input st)) = j :: jobs st /\
    job_id j = fst (addJob input st) /\
    (input_status input = None -> status j = "applied") /\
    map ev_type (timeline j) =
      (["created"; "status_changed"] ++
       (if truthy (input_appliedDate input) then ["applied_date_updated"] else []))%list /\
    Forall (fun e => ev_createdAt e = clock st) (timeline j) /\
    createdAt j = Some (clock st) /\
    (In "applied_date_updated" (map ev_type (timeline j)) <->
       exists d, input_appliedDate input = Some d /\ d <> "").
Proof.
  unfold addJob, loadJobsM, saveJobs. unfold_monad.
  destruct (input_appliedDate input) as [d|] eqn:Ed; simpl.
  - destruct (String.eqb d "") eqn:Edef; simpl.
    + apply String.eqb_eq in Edef. subst d.
      eexists; repeat split; try reflexivity.
      * intro Hs. rewrite Hs. reflexivity.
      * repeat constructor.
      * intros [H | [H | H]]; discriminate || contradiction.
      * intros [d [Hd Hne]]. inversion Hd; subst. contradiction.
    + eexists; repeat split; try reflexivity.
      * intro Hs. rewrite Hs. reflexivity.
      * repeat constructor.
      * intros _. exists d. split; [reflexivity|]. apply String.eqb_neq. exact Edef.
      * intros _. right. right. left. reflexivity.
  - eexists; repeat split; try reflexivity.
    + intro Hs. rewrite Hs. reflexivity.
    + repeat constructor.
    + intros [H | [H | H]]; discriminate || contradiction.
    + intros [d [Hd _]]. discriminate.
Qed.

(** C5: on the record a mutator targets, [setStatus] appends a
    ['status_changed'] event exactly when the new status differs from the
    current one; [updateJob] (whose [status], typed [JobStatus], is one of the
    six values when present) appends ['status_changed'] exactly when the given
    status differs and ['applied_date_updated'] exactly when the given applied
    date differs from the current one; [addTag] appends ['tag_added'] exactly
    when the tag is not yet on the record and leaves it there exactly once.
    Hence repeating [setStatus] with the same status, or [addTag] with the same
    tag, appends nothing the second time. *)
Theorem timeline_events_only_on_change :
  (forall st id x i j, nth_error (jobs st) i = Some j -> job_id j = id ->
     exists j', nth_error (jobs (snd (setStatus id x st))) i = Some j' /\
       job_id j' = id /\ status j' = x /\
       exists new, timeline j' = (timeline j ++ new)%list /\
         map ev_type new = (if String.eqb (status j) x then [] else ["status_changed"])) /\
  (forall st id p i j, nth_error (jobs st) i = Some j -> job_id j = id ->
     (forall x, patch_status p = Some x -> In x allowedStatuses) ->
     exists j', nth_error (jobs (snd (updateJob id p st))) i = Some j' /\
       exists new, timeline j' = (timeline j ++ new)%list /\
         map ev_type new =
           ((match patch_status p with
             | Some x => if String.eqb x (status j) then [] else ["status_changed"]
             | None => []
             end) ++
            (match patch_appliedDate p with
             | Some d => if opt_eqb (Some d) (appliedDate j) then []
                         else ["applied_date_updated"]
             | None => []
             end))%list) /\
  (forall st id tag i j, nth_error (jobs st) i = Some j -> job_id j = id ->
     exists j', nth_error (jobs (snd (addTag id tag st))) i = Some j' /\
       (exists new, timeline j' = (timeline j ++ new)%list /\
          map ev_type new =
            (if existsb (String.eqb tag) (tags j) then [] else ["tag_added"])) /\
       count_occ string_dec (tags j') tag = 1) /\
  (forall st id x i j, nth_error (jobs st) i = Some j -> job_id j = id ->
     let st1 := snd (setStatus id x st) in
     exists j1 j2, nth_error (jobs st1) i = Some j1 /\
       nth_error (jobs (snd (setStatus id x st1))) i = Some j2 /\
       timeline j2 = timeline j1) /\
  (forall st id tag i j, nth_error (jobs st) i = Some j -> job_id j = id ->
     let st1 := snd (addTag id tag st) in
     exists j1 j2, nth_error (jobs st1) i = Some j1 /\
       nth_error (jobs (snd (addTag id tag st1))) i = Some j2 /\
       timeline j2 = timeline j1 /\ count_occ string_dec (tags j2) tag = 1).
Proof.
  split; [|split; [|split; [|split]]].
  - intros st id x i j Hi Hid.
    destruct (setStatus_nth st id x i j Hi Hid) as [s [_ Hn]].
    destruct (setStatus_one_match id x j s Hid) as [H1 [H2 [_ [H4 _]]]].
    eexists. split; [exact Hn|]. auto.
  - intros st id p i j Hi Hid Hp.
    destruct (updateJob_nth st id p i j Hi) as [s [_ Hn]].
    destruct (updateJob_one_match id p j s Hid) as [_ [_ [_ H4]]].
    + intros x Hx. apply allowed_status_nonempty. apply Hp. exact Hx.
    + eexists. split; [exact Hn|]. exact H4.
  - intros st id tag i j Hi Hid.
    destruct (addTag_nth st id tag i j Hi) as [s [_ Hn]].
    destruct (addTag_one_match id tag j s Hid) as [_ [_ [_ [H4 H5]]]].
    eexists. split; [exact Hn|]. auto.
  - intros st id x i j Hi Hid. simpl.
    destruct (setStatus_nth st id x i j Hi Hid) as [s [_ Hn]].
    destruct (setStatus_one_match id x j s Hid) as [H1 [H2 _]].
    set (j1 := fst (setStatus_one id x j s)) in *.
    destruct (setStatus_nth (snd (setStatus id x st)) id x i j1 Hn H1) as [s' [_ Hn']].
    destruct (setStatus_one_match id x j1 s' H1) as [_ [_ [_ [_ [Hsame _]]]]].
    exists j1, (fst (setStatus_one id x j1 s')). split; [exact Hn|]. split; [exact Hn'|].
    rewrite Hsame; [reflexivity|]. rewrite H2. apply String.eqb_refl.
  - intros st id tag i j Hi Hid. simpl.
    destruct (addTag_nth st id tag i j Hi) as [s [_ Hn]].
    destruct (addTag_one_match id tag j s Hid) as [H1 [_ [_ [_ Hc]]]].
    set (j1 := fst (addTag_one id tag j s)) in *.
    destruct (addTag_nth (snd (addTag id tag st)) id tag i j1 Hn) as [s' [_ Hn']].
    destruct (addTag_one_match id tag j1 s' H1) as [_ [_ [_ [[new [Ht Hty]] Hc']]]].
    exists j1, (fst (addTag_one id tag j1 s')). split; [exact Hn|]. split; [exact Hn'|].
    split; [|exact Hc'].
    assert (Hin : existsb (String.eqb tag) (tags j1) = true).
    { apply existsb_eqb_In. apply (count_occ_In string_dec). lia. }
    rewrite Hin in Hty. destruct new; [|discriminate]. rewrite Ht. apply app_nil_r.
Qed.

(** C9, as stated, fails: [setStatus] to the status a record already has
    returns the record itself, so its [updatedAt] is not refreshed. *)
Lemma setStatus_same_status_keeps_updatedAt :
  exists j', nth_error (jobs (snd (setStatus "job-0" "applied" sample_store))) 0 = Some j' /\
    updatedAt j' <> Some (clock sample_store).
Proof. exists sample_job. split; [reflexivity | discriminate]. Qed.

(** C9 (amended): on the record it targets, each of [updateJob], [addTag],
    [addNote], [setNote] and [setCustomFieldValue] sets [updatedAt] to the
    current time, and so does [setStatus] when the status changes; [setStatus]
    to the unchanged status leaves the record as it is (a no-op).  No
    operation changes the [createdAt] of any existing record: the mutators keep
    it on every record, [deleteJob] only removes records, [addJob] only adds
    one in front, and [upsertCustomField] leaves the records alone. *)
Theorem updatedAt_refreshed_createdAt_kept :
  (forall st id i j, nth_error (jobs st) i = Some j -> job_id j = id ->
     (forall p, exists j', nth_error (jobs (snd (updateJob id p st))) i = Some j' /\
        updatedAt j' = Some (clock st)) /\
     (forall tag, exists j', nth_error (jobs (snd (addTag id tag st))) i = Some j' /\
        updatedAt j' = Some (clock st)) /\
     (forall note, exists j', nth_error (jobs (snd (addNote id note st))) i = Some j' /\
        updatedAt j' = Some (clock st)) /\
     (forall note, exists j', nth_error (jobs (snd (setNote id note st))) i = Some j' /\
        updatedAt j' = Some (clock st)) /\
     (forall k v, exists j',
        nth_error (jobs (snd (setCustomFieldValue id k v st))) i = Some j' /\
        updatedAt j' = Some (clock st)) /\
     (forall x, exists j', nth_error (jobs (snd (setStatus id x st))) i = Some j' /\
        (status j <> x -> updatedAt j' = Some (clock st)) /\
        (status j = x -> j' = j))) /\
  (forall st i j, nth_error (jobs st) i = Some j ->
     (forall id p, exists j', nth_error (jobs (snd (updateJob id p st))) i = Some j' /\
        createdAt j' = createdAt j) /\
     (forall id x, exists j', nth_error (jobs (snd (setStatus id x st))) i = Some j' /\
        createdAt j' = createdAt j) /\
     (forall id tag, exists j', nth_error (jobs (snd (addTag id tag st))) i = Some j' /\
        createdAt j' = createdAt j) /\
     (forall id note, exists j', nth_error (jobs (snd (addNote id note st))) i = Some j' /\
        createdAt j' = createdAt j) /\
     (forall id note, exists j', nth_error (jobs (snd (setNote id note st))) i = Some j' /\
        createdAt j' = createdAt j) /\
     (forall id k v, exists j',
        nth_error (jobs (snd (setCustomFieldValue id k v st))) i = Some j' /\
        createdAt j' = createdAt j)) /\
  (forall st id j, In j (jobs (snd (deleteJob id st))) -> In j (jobs st)) /\
  (forall st input, tl (jobs (snd (addJob input st))) = jobs st) /\
  (forall st name type, jobs (snd (upsertCustomField name type st)) = jobs st).
Proof.
  split; [|split; [|split; [|split]]].
  - intros st id i j Hi Hid. repeat split; intros.
    + destruct (updateJob_nth st id p i j Hi) as [s [Hs Hn]].
      eexists. split; [exact Hn|]. rewrite <- Hs.
      apply updateJob_one_updatedAt. exact Hid.
    + destruct (addTag_nth st id tag i j Hi) as [s [Hs Hn]].
      eexists. split; [exact Hn|]. rewrite <- Hs. apply (addTag_one_match id tag j s Hid).
    + destruct (addNote_nth st id note i j Hi) as [s [Hs Hn]].
      eexists. split; [exact Hn|]. rewrite <- Hs. apply (addNote_one_match id note j s Hid).
    + destruct (setNote_nth st id note i j Hi) as [s [Hs Hn]].
      eexists. split; [exact Hn|]. rewrite <- Hs. apply (setNote_one_match id note j s Hid).
    + destruct (setCustomFieldValue_nth st id k v i j Hi) as [s [Hs Hn]].
      eexists. split; [exact Hn|]. rewrite <- Hs.
      apply (setCustomFieldValue_one_match id k v j s Hid).
    + destruct (setStatus_nth st id x i j Hi Hid) as [s [Hs Hn]].
      destruct (setStatus_one_match id x j s Hid) as [_ [_ [_ [_ [Hsame Hdiff]]]]].
      eexists. split; [exact Hn|]. split.
      * intro Hne. rewrite <- Hs. apply Hdiff. apply String.eqb_neq. exact Hne.
      * intro Heq. apply Hsame. rewrite Heq. apply String.eqb_refl.
  - intros st i j Hi. repeat split; intros.
    + destruct (updateJob_nth st id p i j Hi) as [s [_ Hn]].
      eexists. split; [exact Hn|]. apply updateJob_one_createdAt.
    + destruct (map_mutation_nth (setStatus_one id x) st i j) as [s [_ Hn]];
        [intros; apply setStatus_one_clock | exact Hi |].
      eexists. split; [exact Hn|]. apply setStatus_one_createdAt.
    + destruct (addTag_nth st id tag i j Hi) as [s [_ Hn]].
      eexists. split; [exact Hn|]. apply addTag_one_createdAt.
    + destruct (addNote_nth st id note i j Hi) as [s [_ Hn]].
      eexists. split; [exact Hn|]. apply addNote_one_createdAt.
    + destruct (setNote_nth st id note i j Hi) as [s [_ Hn]].
      eexists. split; [exact Hn|]. apply setNote_one_createdAt.
    + destruct (setCustomFieldValue_nth st id k v i j Hi) as [s [_ Hn]].
      eexists. split; [exact Hn|]. apply setCustomFieldValue_one_createdAt.
  - intros st id j Hj. unfold deleteJob, bind, loadJobsM, saveJobs in Hj. simpl in Hj.
    apply filter_In in Hj. apply Hj.
  - intros st input. unfold addJob, loadJobsM, saveJobs. unfold_monad.
    destruct (truthy (input_appliedDate input)); reflexivity.
  - intros st name type. unfold upsertCustomField, bind, loadSchemaM, saveSchema, ret.
    simpl. destruct (makeFieldId name st) as [id st1] eqn:E. simpl.
    rewrite <- (makeFieldId_jobs name st), E. reflexivity.
Qed.

(** C1: [applyAiActions] returns one result per action, in the order of the
    actions.  The result at the position of an action is computed from that
    action run in the store left by all the actions before it; when the action
    throws, its result is [{ ok: false, message }] with the thrown message and
    the store is left as the action found it; and the actions after it still
    run, from that store, producing the remaining results and the final store. *)
Theorem applyAiActions_one_result_per_action
  (fields : list CustomField) (actions : list AiAction) (st : Store) :
  let results := fst (applyAiActions actions fields st) in
  length results = length actions /\
  map action results = actions /\
  (forall pre a post, actions = (pre ++ a :: post)%list ->
     let s1 := snd (applyAiActions pre fields st) in
     let s2 := snd (applyAction fields a s1) in
     nth_error results (length pre) = Some (toResult a (fst (applyAction fields a s1))) /\
     (forall msg, fst (applyAction fields a s1) = inl msg ->
        nth_error results (length pre) =
          Some {| action := a; ok := false; message := msg |} /\ s2 = s1) /\
     skipn (S (length pre)) results = fst (applyAiActions post fields s2) /\
     snd (applyAiActions actions fields st) = snd (applyAiActions post fields s2)).
Proof.
  unfold applyAiActions. simpl.
  assert (Hmap : map action (fst (applyLoop fields actions [] st)) = actions)
    by apply applyLoop_results.
  split; [rewrite <- length_map with (f := action), Hmap; reflexivity|].
  split; [exact Hmap|].
  intros pre a post ->. rewrite applyLoop_split. cbv zeta. cbn [fst snd].
  assert (Hpre := applyLoop_results fields pre st).
  set (r1 := fst (applyLoop fields pre [] st)) in *.
  set (s1 := snd (applyLoop fields pre [] st)) in *.
  set (r := toResult a (fst (applyAction fields a s1))).
  set (r2 := fst (applyLoop fields post [] (snd (applyAction fields a s1)))).
  assert (Hlen : length r1 = length pre) by (rewrite <- Hpre, length_map; reflexivity).
  rewrite <- Hlen.
  assert (Hnth : nth_error (r1 ++ r :: r2)%list (length r1) = Some r)
    by (rewrite nth_error_app2, Nat.sub_diag by lia; reflexivity).
  split; [exact Hnth|]. split; [|split].
  - intros msg Hmsg. rewrite Hnth. unfold r. rewrite Hmsg. split; [reflexivity|].
    destruct (applyAction fields a s1) as [o s'] eqn:Ea. simpl in Hmsg |- *. subst o.
    exact (applyAction_throw_keeps_store fields a s1 msg s' Ea).
  - change (skipn (S (length r1)) (r1 ++ r :: r2)%list = r2).
    rewrite skipn_app, skipn_all2 by lia.
    replace (S (length r1) - length r1) with 1 by lia. reflexivity.
  - reflexivity.
Qed.

(** C6: the normalizer accepts a candidate only in one of two shapes: (a) an
    object whose [type] is a string naming one of the seven kinds, or (b) an
    object with a single key naming a kind (whose value, an object, becomes the
    payload); the accepted candidate is then handed to the per-kind validation
    [sanitizeAction].  The wrapper [{ "<kind>": {...} }] normalizes exactly as
    the same payload with an explicit [type]; and the payload
    [{"actions":[{"add_job":{"company":"Acme","role":"Engineer","status":"applied"}}]}]
    normalizes to one [add_job] command which, applied to an empty store,
    leaves exactly one record: Acme, Engineer, applied. *)
Theorem normalizeAction_two_shapes :
  (forall raw a, normalizeAction raw = Some a ->
     is_object raw = true /\
     ((exists t, obj_get (own_props raw) "type" = Some (JStr t) /\ In t ACTION_TYPES) \/
      (exists k v, own_props raw = [(k, v)] /\ In k ACTION_TYPES))) /\
  (forall o t, obj_get o "type" = Some (JStr t) -> In t ACTION_TYPES ->
     normalizeAction (JObj o) = sanitizeAction (obj_set o "type" (JStr t))) /\
  (forall k p, In k ACTION_TYPES -> is_object p = true ->
     normalizeAction (JObj [(k, p)]) =
       sanitizeAction (("type", JStr k) :: obj_delete (own_props p) "type")) /\
  (forall k p, In k ACTION_TYPES -> is_object p = true ->
     normalizeAction (JObj [(k, p)]) =
       normalizeAction (JObj (obj_set (own_props p) "type" (JStr k)))) /\
  (let payload :=
     JObj [("actions", JArr [JObj [("add_job", JObj [("company", JStr "Acme");
             ("role", JStr "Engineer"); ("status", JStr "applied")])]])] in
   actions (normalizeAiResponse payload) =
     [AddJob "Acme" "Engineer" (Some "applied") None None None None] /\
   exists j, jobs (snd (applyAiActions (actions (normalizeAiResponse payload)) []
                                       (empty_store "t"))) = [j] /\
     company j = "Acme" /\ role j = "Engineer" /\ status j = "applied").
Proof.
  assert (Hwrapped : forall k p, In k ACTION_TYPES -> is_object p = true ->
            normalizeAction (JObj [(k, p)]) =
              sanitizeAction (("type", JStr k) :: obj_delete (own_props p) "type")).
  { intros k p Hk Hp. unfold normalizeAction. cbn [is_object negb own_props obj_get].
    assert (Hkt : String.eqb "type" k = false)
      by (apply String.eqb_neq; intro E; apply (action_type_not_type k Hk); auto).
    rewrite Hkt. unfold normalizeWrapped. cbn [obj_keys map fst obj_get].
    assert (Hs : set_has ACTION_TYPES k = true) by (apply existsb_eqb_In; exact Hk).
    rewrite Hs, String.eqb_refl, Hp. reflexivity. }
  assert (Hdirect : forall o t, obj_get o "type" = Some (JStr t) -> In t ACTION_TYPES ->
            normalizeAction (JObj o) = sanitizeAction (obj_set o "type" (JStr t))).
  { intros o t Ht Hk. unfold normalizeAction. cbn [is_object negb own_props]. rewrite Ht.
    assert (Hs : set_has ACTION_TYPES t = true) by (apply existsb_eqb_In; exact Hk).
    assert (He : String.eqb t "" = false)
      by (apply String.eqb_neq; apply action_type_nonempty; exact Hk).
    rewrite Hs, He. reflexivity. }
  split; [|split; [exact Hdirect|split; [exact Hwrapped|split]]].
  - intros raw a H. unfold normalizeAction in H.
    destruct (is_object raw) eqn:Hobj; [|discriminate]. split; [reflexivity|].
    cbn [negb] in H.
    assert (Hw : normalizeWrapped (own_props raw) = Some a ->
                 exists k v, own_props raw = [(k, v)] /\ In k ACTION_TYPES).
    { unfold normalizeWrapped. destruct (own_props raw) as [|[k v] [|kv rest]];
        cbn [obj_keys map fst]; try discriminate.
      destruct (set_has ACTION_TYPES k) eqn:Hs; [|discriminate]. intros _.
      exists k, v. split; [reflexivity|]. apply existsb_eqb_In. exact Hs. }
    destruct (obj_get (own_props raw) "type") as [[]|] eqn:Ht;
      try (right; apply Hw; exact H).
    destruct (negb (String.eqb s "") && set_has ACTION_TYPES s) eqn:Hc.
    + left. exists s. split; [reflexivity|].
      apply andb_true_iff in Hc. apply existsb_eqb_In. apply Hc.
    + right. apply Hw. exact H.
  - intros k p Hk Hp. rewrite (Hwrapped k p Hk Hp).
    rewrite (Hdirect _ k (obj_get_set_same _ _ _) Hk).
    apply sanitizeAction_ext. intro key. simpl.
    destruct (String.eqb_spec key "type") as [->|Hne].
    + rewrite obj_get_set_same. reflexivity.
    + rewrite !obj_get_set_other by exact Hne. rewrite obj_get_delete_other by exact Hne.
      reflexivity.
  - split; [reflexivity|]. eexists. split; [reflexivity|]. repeat split.
Qed.

(** C7: per-kind validation.  A [set_status] candidate is kept only with an id
    that is non-empty after trimming and a status that is exactly one of the
    six values ([promoted] yields no command at all and no store change); an
    [add_custom_field] candidate with a non-empty name is always kept, with its
    [fieldType] when that is one of [text], [number], [date], [url] and with
    ['text'] otherwise (missing or unrecognized); an [add_job] candidate is
    kept exactly when [company] and [role] are strings non-empty after
    trimming. *)
Theorem sanitizeAction_per_kind_validation :
  (forall o a, obj_get o "type" = Some (JStr "set_status") -> sanitizeAction o = Some a ->
     exists id s, a = SetStatus id s /\ id <> "" /\
       obj_get o "status" = Some (JStr s) /\ In s STATUS_TYPES) /\
  (let payload :=
     JObj [("actions", JArr [JObj [("type", JStr "set_status"); ("id", JStr "job-0");
                                    ("status", JStr "promoted")]])] in
   actions (normalizeAiResponse payload) = [] /\
   applyAiActions (actions (normalizeAiResponse payload)) [] sample_store = ([], sample_store)) /\
  (forall o name, obj_get o "type" = Some (JStr "add_custom_field") ->
     toText (obj_get o "name") = Some name ->
     exists ft, sanitizeAction o = Some (AddCustomField name ft) /\ In ft FIELD_TYPES /\
       (obj_get o "fieldType" = Some (JStr ft) \/
        (ft = "text" /\ forall x, obj_get o "fieldType" = Some (JStr x) -> ~ In x FIELD_TYPES))) /\
  (forall o, obj_get o "type" = Some (JStr "add_job") ->
     (sanitizeAction o <> None <->
      exists c r, obj_get o "company" = Some (JStr c) /\ obj_get o "role" = Some (JStr r) /\
                  trim c <> "" /\ trim r <> "")).
Proof.
  split; [|split; [split; reflexivity|split]].
  - intros o a Ht H. unfold sanitizeAction in H. rewrite Ht in H. simpl in H.
    destruct (toText (obj_get o "id")) as [id|] eqn:Hid; [|discriminate].
    destruct (toStatus (obj_get o "status")) as [st|] eqn:Hst; [|discriminate].
    inversion H; subst. exists id, st.
    destruct (toText_some _ _ Hid) as [_ [_ [_ Hne]]].
    destruct (toStatus_some _ _ Hst) as [Hg Hin]. auto.
  - intros o name Ht Hn. unfold sanitizeAction. rewrite Ht. simpl. rewrite Hn.
    destruct (obj_get o "fieldType") as [[]|] eqn:Hf;
      try (exists "text"; split; [reflexivity|]; split; [simpl; auto|];
           right; split; [reflexivity|]; intros x Hx; discriminate Hx).
    destruct (set_has FIELD_TYPES s) eqn:Hs; pose proof Hs as Hs';
      unfold set_has, FIELD_TYPES in Hs'; simpl in Hs'; rewrite Hs'.
    + exists s. split; [reflexivity|]. split; [apply (proj1 (existsb_eqb_In s FIELD_TYPES)); exact Hs|].
      left. reflexivity.
    + exists "text". split; [reflexivity|]. split; [simpl; auto|].
      right. split; [reflexivity|]. intros x Hx. inversion Hx; subst.
      intro Hin. apply (proj2 (existsb_eqb_In _ FIELD_TYPES)) in Hin.
      unfold set_has in Hs. rewrite Hin in Hs. discriminate.
  - intros o Ht. unfold sanitizeAction. rewrite Ht. simpl. split.
    + destruct (toText (obj_get o "company")) as [c|] eqn:Hc;
        destruct (toText (obj_get o "role")) as [r|] eqn:Hr;
        try (intro H; exfalso; apply H; reflexivity).
      intros _. destruct (toText_some _ _ Hc) as [c0 [Hc0 [-> Hce]]].
      destruct (toText_some _ _ Hr) as [r0 [Hr0 [-> Hre]]].
      exists c0, r0. auto.
    + intros [c [r [Hc [Hr [Hce Hre]]]]]. rewrite Hc, Hr. unfold toText.
      apply String.eqb_neq in Hce. apply String.eqb_neq in Hre.
      rewrite Hce, Hre. discriminate.
Qed.

(** C10: rehydration is total and tolerant.  For any stored text (absent,
    empty, unparsable, or parsed to a value of the wrong shape) [loadJobs] and
    [loadSchema] return a list; every record returned by [loadJobs] is an
    object whose [timeline] is an array; a record's array timeline is kept and
    a missing or non-array one becomes the empty array; absent, empty or
    unparsable text gives empty collections, a parsed non-array records
    document gives no records, and the schema is either empty or exactly the
    stored [customFields] array. *)
Theorem loadJobs_loadSchema_tolerant (JSON_parse : string -> option json)
        (raw : option string) :
  (forall r, In r (loadJobs JSON_parse raw) ->
     exists o tl, r = JObj o /\ obj_get o "timeline" = Some (JArr tl)) /\
  (forall o tl, obj_get o "timeline" = Some (JArr tl) ->
     loadRecord (JObj o) = Some (JObj (obj_set o "timeline" (JArr tl)))) /\
  (forall o, (forall tl, obj_get o "timeline" <> Some (JArr tl)) ->
     loadRecord (JObj o) = Some (JObj (obj_set o "timeline" (JArr [])))) /\
  ((raw = None \/ raw = Some "" \/ exists t, raw = Some t /\ JSON_parse t = None) ->
     loadJobs JSON_parse raw = [] /\ loadSchema JSON_parse raw = []) /\
  (forall t v, raw = Some t -> JSON_parse t = Some v -> is_array (Some v) = false ->
     loadJobs JSON_parse raw = []) /\
  (loadSchema JSON_parse raw = [] \/
   exists t o, raw = Some t /\ JSON_parse t = Some (JObj o) /\
     obj_get o "customFields" = Some (JArr (loadSchema JSON_parse raw))).
Proof.
  split; [|split; [|split; [|split; [|split]]]].
  - intros r Hr. unfold loadJobs in Hr.
    destruct raw as [text|]; [|contradiction].
    destruct (String.eqb text ""); [contradiction|].
    destruct (JSON_parse text) as [[| b | z | s0 | l | o]|]; try contradiction.
    destruct (map_throwing loadRecord l) as [ys|] eqn:Hm; [|contradiction].
    destruct (map_throwing_in _ _ _ _ Hm Hr) as [x [_ Hx]].
    exact (loadRecord_timeline _ _ Hx).
  - intros o tl H. unfold loadRecord. simpl. rewrite H. reflexivity.
  - intros o H. unfold loadRecord. simpl.
    destruct (obj_get o "timeline") as [[| b | z | s0 | l | o']|] eqn:E; try reflexivity.
    exfalso. exact (H l eq_refl).
  - intros [-> | [-> | [t [-> Ht]]]]; try (split; reflexivity).
    unfold loadJobs, loadSchema. rewrite Ht.
    destruct (String.eqb t ""); split; reflexivity.
  - intros t v -> Ht Hv. unfold loadJobs. rewrite Ht.
    destruct (String.eqb t ""); [reflexivity|].
    destruct v; try reflexivity. discriminate Hv.
  - unfold loadSchema. destruct raw as [t|]; [|left; reflexivity].
    destruct (String.eqb t ""); [left; reflexivity|].
    destruct (JSON_parse t) as [v|] eqn:Ht; [|left; reflexivity].
    destruct v as [| b | z | s0 | l | o]; try (left; reflexivity).
    destruct (obj_get o "customFields") as [[| b | z | s0 | l | o']|] eqn:Hf;
      try (left; reflexivity).
    right. exists t, o. auto.
Qed.

(** C2: the applicator has no [add_tag] case.  Applying a normalized
    [add_tag] command, whatever its id and tag, reports
    [{ok: false, message: "Unsupported action: add_tag"}] and leaves the store
    unchanged, although the normalizer does emit [add_tag] commands and the
    store's [addTag] would add the tag to the record. *)
Theorem applyAiActions_add_tag_unsupported :
  (forall fields id tag st,
     applyAiActions [AddTag id tag] fields st =
       ([{| action := AddTag id tag; ok := false;
            message := "Unsupported action: add_tag" |}], st)) /\
  normalizeAction (JObj [("type", JStr "add_tag"); ("id", JStr "job-0");
                         ("tag", JStr "phone-screen")]) =
    Some (AddTag "job-0" "phone-screen") /\
  (exists j, jobs (snd (addTag "job-0" "phone-screen" sample_store)) = [j] /\
             tags j = ["phone-screen"]) /\
  (exists j, jobs (snd (applyAiActions [AddTag "job-0" "phone-screen"] [] sample_store)) = [j] /\
             tags j = []).
Proof.
  split; [intros; reflexivity|].
  split; [reflexivity|].
  split; eexists; split; reflexivity.
Qed.

(** C3: the applicator's [add_job] case does not pass the command's tags to
    [addJob]: for any [add_job] command with non-empty company and role, the
    new record (placed first in the collection) has no tags, whatever tags the
    command carried. *)
Theorem applyAiActions_add_job_drops_tags (fields : list CustomField)
        (company role : string) (status appliedDate : option string)
        (tags0 notes : option (list string)) (custom : option custom_map)
        (st : Store) (Hc : company <> "") (Hr : role <> "") :
  exists j,
    jobs (snd (applyAiActions [AddJob company role status appliedDate tags0 notes custom]
                              fields st)) = j :: jobs st /\
    tags j = [].
Proof.
  unfold applyAiActions. cbn [applyLoop].
  rewrite (applyAction_addJob fields company role status appliedDate tags0 notes custom st Hc Hr).
  cbn [applyLoop ret snd].
  match goal with |- context [addJob ?i st] => destruct (addJob_tags i st) as [j [Hj Ht]] end.
  exists j. split; [exact Hj | exact Ht].
Qed.

Lemma applyAiActions_add_job_drops_tags_witness :
  "Acme" <> "" /\ "Engineer" <> "" /\
  exists j,
    jobs (snd (applyAiActions [AddJob "Acme" "Engineer" None None (Some ["email"]) None None]
                              [] sample_store)) = j :: jobs sample_store /\
    tags j = [].
Proof.
  split; [discriminate|]. split; [discriminate|].
  apply (applyAiActions_add_job_drops_tags [] "Acme" "Engineer" None None (Some ["email"])
           None None sample_store); discriminate.
Defined.

(* ========================================================================= *)
(** * Further properties of the code *)

(** X1: Every command in the normalizer's output is well formed: required strings are non-empty and trimmed, a status is one of the six statuses, a field type is one of the four field types, tags and notes hold no blank item, a custom map is non-empty, and no unknown kind survives. *)
Theorem normalizeAiResponse_well_formed (raw : json) (a : AiAction) :
  In a (actions (normalizeAiResponse raw)) -> well_formed_action a.
Proof. exact (normalizeAiResponse_wf raw a). Qed.

Lemma normalizeAiResponse_well_formed_witness :
  In (AddJob "Acme" "Engineer" (Some "applied") None None None None)
     (actions (normalizeAiResponse sample_reply)) /\
  well_formed_action (AddJob "Acme" "Engineer" (Some "applied") None None None None).
Proof.
  split.
  - vm_compute. left. reflexivity.
  - apply (normalizeAiResponse_well_formed sample_reply). vm_compute. left. reflexivity.
Defined.

(** X2: Applying the normalizer's output never produces an error result: every result is a success, except the results of [add_tag] commands, which report the message [Unsupported action: add_tag]. *)
Theorem applyAiActions_normalized_outcomes (raw : json) (fields : list CustomField)
  (st : Store) :
  Forall (fun r => ok r = true \/
                   exists id tag, action r = AddTag id tag /\
                                  message r = "Unsupported action: add_tag")
    (fst (applyAiActions (actions (normalizeAiResponse raw)) fields st)).
Proof.
  apply applyLoop_forall. intros a s Ha.
  pose proof (normalizeAiResponse_wf raw a Ha) as Hwf.
  destruct (applyAction_wf fields a s Hwf) as [[id [tag [-> Happ]]] | [msg [st' Happ]]];
    rewrite Happ; simpl; [right; eexists _, _; split; reflexivity | left; reflexivity].
Qed.



(** X4: After [setCustomFieldValue], the targeted record reads the new value at the field id, reads every other key as before, and has exactly one ["custom_updated"] event appended to its timeline. *)
Theorem setCustomFieldValue_lookup (st : Store) (id k : string) (v : scalar)
  (i : nat) (j : Job) :
  nth_error (jobs st) i = Some j -> job_id j = id ->
  exists j', nth_error (jobs (snd (setCustomFieldValue id k v st))) i = Some j' /\
    custom_get (custom j') k = Some v /\
    (forall k', k' <> k -> custom_get (custom j') k' = custom_get (custom j) k') /\
    exists e, timeline j' = (timeline j ++ [e])%list /\ ev_type e = "custom_updated".
Proof.
  intros Hi E. destruct (setCustomFieldValue_nth st id k v i j Hi) as [s [_ Hn]].
  rewrite Hn. unfold setCustomFieldValue_one. rewrite E, String.eqb_refl. cbn [negb].
  unfold_monad. eexists. split; [reflexivity|]. cbn.
  split; [apply custom_get_set_same|]. split.
  - intros k' Hk'. apply custom_get_set_other. exact Hk'.
  - eexists. split; reflexivity.
Qed.

Lemma setCustomFieldValue_lookup_witness :
  exists j', nth_error (jobs (snd (setCustomFieldValue "job-0" "salary" (SNum 100%Z)
                                   sample_store))) 0 = Some j' /\
    custom_get (custom j') "salary" = Some (SNum 100%Z) /\
    (forall k', k' <> "salary" -> custom_get (custom j') k' = custom_get (custom sample_job) k') /\
    exists e, timeline j' = (timeline sample_job ++ [e])%list /\ ev_type e = "custom_updated".
Proof.
  apply (setCustomFieldValue_lookup sample_store "job-0" "salary" (SNum 100%Z) 0 sample_job);
    reflexivity.
Defined.

(** X5: [updateJob] overwrites exactly the fields present in the patch; a custom patch with distinct keys is merged key by key, the patch winning over the old values. *)
Theorem updateJob_patch_fields (st : Store) (id : string) (p : PartialJobInput)
  (i : nat) (j : Job) :
  nth_error (jobs st) i = Some j -> job_id j = id ->
  opt_prop (fun c => NoDup (map fst c)) (patch_custom p) ->
  exists j', nth_error (jobs (snd (updateJob id p st))) i = Some j' /\
    company j' = default (company j) (patch_company p) /\
    role j' = default (role j) (patch_role p) /\
    status j' = default (status j) (patch_status p) /\
    appliedDate j' = match patch_appliedDate p with Some d => Some d | None => appliedDate j end /\
    tags j' = default (tags j) (patch_tags p) /\
    notes j' = default (notes j) (patch_notes p) /\
    forall k, custom_get (custom j') k =
      match patch_custom p with
      | Some c => match custom_get c k with Some x => Some x | None => custom_get (custom j) k end
      | None => custom_get (custom j) k
      end.
Proof.
  intros Hi E Hc. destruct (updateJob_nth st id p i j Hi) as [s [_ Hn]].
  rewrite Hn. unfold updateJob_one. rewrite E, String.eqb_refl. cbn [negb].
  destruct (patch_custom p) as [c|] eqn:Ec; simpl in Hc; unfold_monad;
    split_cases; eexists; (split; [reflexivity|]); simpl; repeat split;
    intro k; try reflexivity; apply custom_merge_get; exact Hc.
Qed.

Lemma updateJob_patch_fields_witness :
  exists j', nth_error (jobs (snd (updateJob "job-0" sample_patch sample_store))) 0 = Some j' /\
    company j' = "Acme" /\ role j' = "Staff Engineer" /\ status j' = "applied" /\
    appliedDate j' = Some "" /\ tags j' = [] /\ notes j' = [] /\
    forall k, custom_get (custom j') k =
      match custom_get [("salary", SNum 100%Z)] k with Some x => Some x | None => None end.
Proof.
  destruct (updateJob_patch_fields sample_store "job-0" sample_patch 0 sample_job
              eq_refl eq_refl)
    as [j' [Hn [Hco [Hro [Hst [Had [Hta [Hno Hcu]]]]]]]];
    [simpl; repeat constructor; intros []|].
  exists j'. repeat split; assumption.
Defined.

(** X6: After [addTag], the record's tags hold no duplicates and are the old tags plus the new one. *)
Theorem addTag_tag_set (st : Store) (id tag : string) (i : nat) (j : Job) :
  nth_error (jobs st) i = Some j -> job_id j = id ->
  exists j', nth_error (jobs (snd (addTag id tag st))) i = Some j' /\
    NoDup (tags j') /\ (forall t, In t (tags j') <-> In t (tags j) \/ t = tag).
Proof.
  intros Hi E. destruct (addTag_nth st id tag i j Hi) as [s [_ Hn]].
  rewrite Hn. unfold addTag_one. rewrite E, String.eqb_refl. cbn [negb].
  unfold_monad. split_cases; eexists; (split; [reflexivity|]); simpl;
    (split; [apply set_add_nodup, set_from_nodup|]);
    intro t; rewrite set_add_iff, set_from_iff; reflexivity.
Qed.

Lemma addTag_tag_set_witness :
  exists j', nth_error (jobs (snd (addTag "job-0" "remote" sample_store))) 0 = Some j' /\
    NoDup (tags j') /\ (forall t, In t (tags j') <-> In t (tags sample_job) \/ t = "remote").
Proof. apply (addTag_tag_set sample_store "job-0" "remote" 0 sample_job); reflexivity. Defined.

(** X7: [addNote] appends the note and [setNote] replaces the notes by the note, or by nothing for [null] or an empty note; neither adds a timeline event. *)
Theorem notes_without_timeline (st : Store) (id : string) (i : nat) (j : Job) :
  nth_error (jobs st) i = Some j -> job_id j = id ->
  (forall note, exists j', nth_error (jobs (snd (addNote id note st))) i = Some j' /\
     notes j' = (notes j ++ [note])%list /\ timeline j' = timeline j) /\
  (forall note, exists j', nth_error (jobs (snd (setNote id note st))) i = Some j' /\
     notes j' = match note with
                | Some x => if String.eqb x "" then [] else [x]
                | None => []
                end /\ timeline j' = timeline j).
Proof.
  intros Hi E. split; intro note.
  - destruct (addNote_nth st id note i j Hi) as [s [_ Hn]]. rewrite Hn.
    unfold addNote_one. rewrite E, String.eqb_refl. cbn [negb]. unfold_monad.
    eexists. split; [reflexivity|]. split; reflexivity.
  - destruct (setNote_nth st id note i j Hi) as [s [_ Hn]]. rewrite Hn.
    unfold setNote_one. rewrite E, String.eqb_refl. cbn [negb]. unfold_monad.
    eexists. split; [reflexivity|]. split; [|reflexivity].
    destruct note as [x|]; [|reflexivity]. simpl. destruct (String.eqb x ""); reflexivity.
Qed.

Lemma notes_without_timeline_witness :
  (forall note, exists j', nth_error (jobs (snd (addNote "job-0" note sample_store))) 0 = Some j' /\
     notes j' = (notes sample_job ++ [note])%list /\ timeline j' = timeline sample_job) /\
  (forall note, exists j', nth_error (jobs (snd (setNote "job-0" note sample_store))) 0 = Some j' /\
     notes j' = match note with
                | Some x => if String.eqb x "" then [] else [x]
                | None => []
                end /\ timeline j' = timeline sample_job).
Proof. apply (notes_without_timeline sample_store "job-0" 0 sample_job); reflexivity. Defined.

(** X8: The record-level mutators keep the ids of the collection in order, and [deleteJob] removes exactly the records with the given id. *)
Theorem mutators_keep_ids (st : Store) (id : string) :
  (forall p, map job_id (jobs (snd (updateJob id p st))) = map job_id (jobs st)) /\
  (forall x, map job_id (jobs (snd (setStatus id x st))) = map job_id (jobs st)) /\
  (forall tag, map job_id (jobs (snd (addTag id tag st))) = map job_id (jobs st)) /\
  (forall note, map job_id (jobs (snd (addNote id note st))) = map job_id (jobs st)) /\
  (forall note, map job_id (jobs (snd (setNote id note st))) = map job_id (jobs st)) /\
  (forall k v, map job_id (jobs (snd (setCustomFieldValue id k v st))) = map job_id (jobs st)) /\
  (forall j, In j (jobs (snd (deleteJob id st))) <-> In j (jobs st) /\ job_id j <> id).
Proof.
  refine (conj _ (conj _ (conj _ (conj _ (conj _ (conj _ _)))))). 
  - intro p. change (updateJob id p st) with (map_mutation (updateJob_one id p) st).
    rewrite map_mutation_jobs. apply map_jobs_ids. intros. apply updateJob_one_id.
  - intro x. change (setStatus id x st) with (map_mutation (setStatus_one id x) st).
    rewrite map_mutation_jobs. apply map_jobs_ids. intros. apply setStatus_one_id.
  - intro x. change (addTag id x st) with (map_mutation (addTag_one id x) st).
    rewrite map_mutation_jobs. apply map_jobs_ids. intros. apply addTag_one_id.
  - intro x. change (addNote id x st) with (map_mutation (addNote_one id x) st).
    rewrite map_mutation_jobs. apply map_jobs_ids. intros. apply addNote_one_id.
  - intro x. change (setNote id x st) with (map_mutation (setNote_one id x) st).
    rewrite map_mutation_jobs. apply map_jobs_ids. intros. apply setNote_one_id.
  - intros k v.
    change (setCustomFieldValue id k v st)
      with (map_mutation (setCustomFieldValue_one id k v) st).
    rewrite map_mutation_jobs. apply map_jobs_ids. intros. apply setCustomFieldValue_one_id.
  - intro j. unfold deleteJob, bind, loadJobsM, saveJobs. simpl.
    rewrite filter_In. rewrite negb_true_iff, <- not_true_iff_false, String.eqb_eq.
    reflexivity.
Qed.



(** X10: [makeFieldId] never returns an empty id and ignores surrounding whitespace and letter case of the name. *)
(** makeFieldId *)
Theorem makeFieldId_normal_form (name : string) (st : Store) :
  fst (makeFieldId name st) <> "" /\
  makeFieldId (toLowerCase (trim name)) st = makeFieldId name st.
Proof.
  split.
  - unfold makeFieldId. destruct (String.eqb _ "") eqn:E; simpl; [discriminate|].
    apply String.eqb_neq. exact E.
  - unfold makeFieldId. rewrite trim_toLowerCase, trim_idem, toLowerCase_idem. reflexivity.
Qed.




(** X13: [summarize] returns at most 48 characters, with no whitespace other than plain spaces and no whitespace at the start. *)
Theorem summarize_single_line (text : string) :
  String.length (summarize text) <= 48 /\
  Forall (fun c => is_ws c = false \/ c = " "%char) (list_ascii_of_string (summarize text)) /\
  (forall c rest, summarize text = String c rest -> is_ws c = false).
Proof.
  unfold summarize. set (t := collapse_ws (trim text) false).
  assert (Hchars := collapse_ws_chars (trim text) false). fold t in Hchars.
  assert (Hhead : forall c rest, t = String c rest -> is_ws c = false)
    by (intros c rest; apply collapse_ws_head; intros c0 s0; apply trim_head).
  destruct (Nat.leb (String.length t) 48) eqn:E.
  - apply Nat.leb_le in E. auto.
  - apply Nat.leb_gt in E. split; [|split].
    + rewrite las_length, las_app, length_app, las_substring0.
      pose proof (firstn_le_length 45 (list_ascii_of_string t)). change (length (list_ascii_of_string "...")) with 3. lia.
    + rewrite las_app, las_substring0. apply Forall_app. split.
      * apply Forall_firstn. exact Hchars.
      * repeat constructor.
    + intros c rest H. destruct t as [|c1 t1] eqn:Et; [simpl in E; lia|].
      simpl in H. inversion H; subst. exact (Hhead c t1 eq_refl).
Qed.

(** X14: [applyAiActions] never moves the clock, and leaves the schema unchanged when the batch holds no [add_custom_field] command. *)
Theorem applyAiActions_frame (acts : list AiAction) (fields : list CustomField) (st : Store) :
  clock (snd (applyAiActions acts fields st)) = clock st /\
  ((forall a, In a acts -> forall n t, a <> AddCustomField n t) ->
   schema (snd (applyAiActions acts fields st)) = schema st).
Proof.
  unfold applyAiActions. revert st. induction acts as [|a rest IH]; intro st;
    [split; [reflexivity | intros; reflexivity]|].
  rewrite applyLoop_cons, applyLoop_acc. cbn [snd].
  destruct (applyAction_frame fields a st) as [Hc Hs].
  destruct (IH (snd (applyAction fields a st))) as [Hc' Hs']. split.
  - rewrite Hc', Hc. reflexivity.
  - intro H. rewrite Hs' by (intros; apply H; right; assumption).
    apply Hs. apply H. left. reflexivity.
Qed.

(** X15: An action whose result is a failure leaves the store as it was. *)
Theorem applyAiActions_failed_action_keeps_store (a : AiAction) (fields : list CustomField)
  (st : Store) (r : ActionResult) :
  In r (fst (applyAiActions [a] fields st)) -> ok r = false ->
  snd (applyAiActions [a] fields st) = st.
Proof.
  unfold applyAiActions. rewrite applyLoop_cons. cbn [applyLoop ret fst snd app].
  intros [<- | []] Hok.
  exact (applyAction_failed_keeps_store fields a st _ _ (surjective_pairing _) Hok).
Qed.

Lemma applyAiActions_failed_action_keeps_store_witness :
  In {| action := SetStatus "job-0" "hired"; ok := false; message := "Invalid status" |}
     (fst (applyAiActions [SetStatus "job-0" "hired"] [] sample_store)) /\
  snd (applyAiActions [SetStatus "job-0" "hired"] [] sample_store) = sample_store.
Proof.
  assert (H : In {| action := SetStatus "job-0" "hired"; ok := false; message := "Invalid status" |}
                 (fst (applyAiActions [SetStatus "job-0" "hired"] [] sample_store)))
    by (vm_compute; left; reflexivity).
  split; [exact H|].
  exact (applyAiActions_failed_action_keeps_store _ _ _ _ H eq_refl).
Defined.

(** X16: Applying two batches one after the other is applying their concatenation: the results are concatenated and the final store is the same. *)
Theorem applyAiActions_app (xs ys : list AiAction) (fields : list CustomField) (st : Store) :
  applyAiActions (xs ++ ys) fields st =
  let '(r1, s1) := applyAiActions xs fields st in
  let '(r2, s2) := applyAiActions ys fields s1 in ((r1 ++ r2)%list, s2).
Proof. unfold applyAiActions. apply applyLoop_app. Qed.

(** X17: When the reply does not parse as a whole, [safeParseJson] parses the text from the first [{] to the last [}], and the reply is normalized when that text is a JSON object. *)
Theorem safeParseJson_extracts_braced (JSON_parse : string -> option json)
  (pre mid post : string) (v : json) :
  let text := pre ++ String "{" (mid ++ String "}" post) in
  JSON_parse text = None ->
  index_of_char "{" pre = None -> last_index_of_char "}" post = None ->
  JSON_parse (String "{" (mid ++ "}")) = Some v ->
  safeParseJson JSON_parse text = Some v /\
  parseAiContent JSON_parse text =
    (if is_object v then inr (normalizeAiResponse v) else inl "AI output is not valid JSON").
Proof.
  intros text Hfail Hpre Hpost Hv.
  assert (Hs : safeParseJson JSON_parse text = Some v).
  { unfold safeParseJson. rewrite Hfail. unfold text.
    rewrite index_of_char_app, Hpre. cbn [index_of_char option_map Ascii.eqb].
    rewrite last_index_of_char_app. cbn [last_index_of_char].
    rewrite last_index_of_char_app. cbn [last_index_of_char]. rewrite Hpost.
    cbn [Ascii.eqb Bool.eqb option_map].
    replace (S (String.length pre + S (String.length mid + 0)) - (String.length pre + 0))
      with (String.length (String "{" (mid ++ "}"))) by (cbn [String.length]; rewrite string_length_app; cbn [String.length]; lia).
    rewrite Nat.add_0_r, substring_app_left.
    replace (String "{" (mid ++ String "}" post)) with (String "{" (mid ++ "}") ++ post)
      by (simpl; rewrite string_app_assoc; reflexivity).
    rewrite substring_prefix. exact Hv. }
  split; [exact Hs|]. unfold parseAiContent. rewrite Hs. reflexivity.
Qed.

Lemma safeParseJson_extracts_braced_witness :
  safeParseJson toy_parse ("Sure: " ++ String "{" ("" ++ String "}" " ok")) = Some (JObj []) /\
  parseAiContent toy_parse ("Sure: " ++ String "{" ("" ++ String "}" " ok")) =
    inr (normalizeAiResponse (JObj [])).
Proof.
  exact (safeParseJson_extracts_braced toy_parse "Sure: " "" " ok" (JObj [])
           eq_refl eq_refl eq_refl eq_refl).
Defined.

(** X18: [parseCsv] reads back the rows written by a writer that quotes every cell and doubles inner quotes, for LF, CRLF and CR line ends, with or without a final line end, provided no row is empty or a single empty cell. *)
Theorem parseCsv_roundtrip (sep : list ascii) (rows : list (list string)) :
  sep_ok sep -> Forall csv_row_ok rows ->
  parseCsv (csv_encode sep rows) = rows /\
  parseCsv (csv_encode sep rows ++ string_of_list_ascii sep) = rows.
Proof.
  intros Hsep Hok. unfold parseCsv, csv_encode. split.
  - rewrite list_ascii_of_string_of_list_ascii.
    rewrite <- (app_nil_r (csv_rows sep rows)).
    rewrite parseCsv_rows by auto. reflexivity.
  - rewrite las_app, !list_ascii_of_string_of_list_ascii.
    rewrite parseCsv_rows by auto. reflexivity.
Qed.

Lemma parseCsv_roundtrip_witness :
  sep_ok [cr; lf] /\ Forall csv_row_ok sample_rows /\
  parseCsv (csv_encode [cr; lf] sample_rows) = sample_rows.
Proof.
  assert (Hs : sep_ok [cr; lf]) by (right; left; reflexivity).
  assert (Hr : Forall csv_row_ok sample_rows)
    by (repeat constructor; discriminate).
  split; [exact Hs|]. split; [exact Hr|].
  exact (proj1 (parseCsv_roundtrip _ _ Hs Hr)).
Defined.

(** X19: With a header and at least one row, the CSV import adds one record per row with a non-empty company and role, in front of the old records, each with a trimmed company and role and an allowed status, and reports that count. *)
Theorem importCsv_adds_clean_records (text : string) (st : Store) :
  2 <= length (parseCsv text) ->
  let headers := map (fun cell => toLowerCase (trim cell)) (hd [] (parseCsv text)) in
  let n := length (filter importable (map (csvRowToInput headers) (tl (parseCsv text)))) in
  fst (importCsv text st) = inr n /\
  exists new, jobs (snd (importCsv text st)) = (new ++ jobs st)%list /\
    length new = n /\ Forall imported_record new.
Proof.
  intros Hlen headers n. unfold importCsv.
  assert (Hl : Nat.ltb (length (parseCsv text)) 2 = false) by (apply Nat.ltb_ge; exact Hlen).
  rewrite Hl. fold headers. unfold lift.
  assert (Hc : Forall clean_input (map (csvRowToInput headers) (tl (parseCsv text)))).
  { apply Forall_forall. intros x Hx. apply in_map_iff in Hx. destruct Hx as [r [<- _]].
    apply csvRowToInput_clean. }
  destruct (importInputs_spec _ 0 st Hc) as [Hn Hj].
  destruct (importInputs _ 0 st) as [k st'] eqn:E. simpl in Hn, Hj |- *.
  split; [rewrite Hn; reflexivity | exact Hj].
Qed.

Lemma importCsv_adds_clean_records_witness :
  2 <= length (parseCsv sample_csv) /\ fst (importCsv sample_csv sample_store) = inr 1.
Proof.
  assert (H : 2 <= length (parseCsv sample_csv)) by (vm_compute; lia).
  split; [exact H|].
  exact (proj1 (importCsv_adds_clean_records sample_csv sample_store H)).
Defined.
